(** * Exploratory-data-analysis helpers: column classification,
      association screening, cardinality filter, standardisation.

    Shallow embedding of [functions.py].  A pandas [DataFrame] is an ordered
    list of labelled, typed columns; library calls ([select_dtypes],
    [df[labels]], [nunique], [drop], [itertools.combinations], [crosstab],
    [chi2_contingency], [sort_values], [corr], [round], [StandardScaler]) are
    embedded as functions of the same name and the six functions of the
    module are written on top of them, statement by statement.

    Numbers: a float cell is a rational ([Q]); sums, means and variances are
    computed exactly in [Q]; square roots and the quotients that use them are
    taken in [R].  Missing values (NaN cells) are not part of the input model:
    the toolkit does not handle them.  The p-value of a chi-square statistic
    comes from the survival function of the chi-square distribution, which
    stays a parameter ([chi2_sf]).

    Labels: pandas allows several columns to carry one label; the lookups
    below follow pandas in that case, and the properties are stated for
    frames whose labels are unique. *)

From Stdlib Require Import String Ascii Bool Arith ZArith QArith Qabs Lia.
From Stdlib Require Import Reals Qreals R_Ifp R_sqrt Lra Psatz.
From Stdlib Require Import List Sorting.Sorted Sorting.Permutation.
From Stdlib Require OrderedTypeEx.
Import ListNotations.
Close Scope Q_scope.
Close Scope R_scope.
Open Scope string_scope.
Open Scope list_scope.

(** ** Exceptions and results *)

Inductive exn : Type :=
| KeyError      (* a label is not a column of the frame *)
| ValueError    (* raised by pandas / scipy / sklearn on unusable data *)
| IndexError.   (* tuple index out of range *)

Inductive result (A : Type) : Type :=
| Ok (a : A)
| Raise (e : exn).
Arguments Ok {A} a.
Arguments Raise {A} e.

Definition bind {A B : Type} (m : result A) (k : A -> result B) : result B :=
  match m with
  | Ok a => k a
  | Raise e => Raise e
  end.

Notation "x <- m ;; k" := (bind m (fun x => k))
  (at level 61, m at next level, right associativity).

(** ** Frames *)

(** Storage types: [int64] stands for the integer types that
    [select_dtypes(include='int')] matches, [float64] for the float types
    that [include='float'] matches, [object] for everything else. *)
Inductive dtype : Type := int64 | float64 | object.

Definition dtype_eqb (a b : dtype) : bool :=
  match a, b with
  | int64, int64 | float64, float64 | object, object => true
  | _, _ => false
  end.

(** A column's data carries its storage type. *)
Inductive series : Type :=
| IntSeries (l : list Z)
| FloatSeries (l : list Q)
| ObjectSeries (l : list string).

Definition dtype_of (s : series) : dtype :=
  match s with
  | IntSeries _ => int64
  | FloatSeries _ => float64
  | ObjectSeries _ => object
  end.

Record column : Type := Column { label : string; data : series }.

Definition DataFrame : Type := list column.

(** [df.columns] *)
Definition columns (df : DataFrame) : list string := map label df.

(** [df.select_dtypes(include=t)]: the columns stored with type [t], in the
    frame's order. *)
Definition select_dtypes (include : dtype) (df : DataFrame) : DataFrame :=
  filter (fun c => dtype_eqb (dtype_of (data c)) include) df.

(** Positions of a label: every column carrying it, in frame order. *)
Definition lookup_label (df : DataFrame) (key : string) : list column :=
  filter (fun c => String.eqb (label c) key) df.

(** [df[keys]] with a list of labels: for each key in turn the columns that
    carry it; [KeyError] as soon as one key names no column. *)
Fixpoint getitem_list (df : DataFrame) (keys : list string) : result DataFrame :=
  match keys with
  | [] => Ok []
  | k :: ks =>
      match lookup_label df k with
      | [] => Raise KeyError
      | found => rest <- getitem_list df ks ;; Ok (found ++ rest)
      end
  end.

(** [df[key]] with one label, used where a Series is needed: a missing label
    is a [KeyError]; a label carried by several columns selects a frame, which
    the callers below cannot use as a Series ([ValueError]). *)
Definition getitem (df : DataFrame) (key : string) : result series :=
  match lookup_label df key with
  | [] => Raise KeyError
  | [c] => Ok (data c)
  | _ => Raise ValueError
  end.

Definition mem_string (s : string) (l : list string) : bool :=
  existsb (String.eqb s) l.

(** ** Column classifier *)

Definition extract_categorical_cols (dataset : DataFrame) : result DataFrame :=
  let dataset_cat := select_dtypes int64 dataset in
  getitem_list dataset_cat
    (filter (fun col => negb (mem_string col ["Age"; "PatientID"]))
            (columns dataset_cat)).

Definition extract_numerical_cols (dataset : DataFrame) : result DataFrame :=
  let dataset_num := select_dtypes float64 dataset in
  getitem_list dataset (columns dataset_num ++ ["Age"]).

(** ** Cardinality filter *)

(** Cell values, as [Series.unique] and [crosstab] see them. *)
Inductive value : Type :=
| VInt (z : Z)
| VFloat (q : Q)
| VStr (s : string).

Definition value_eqb (a b : value) : bool :=
  match a, b with
  | VInt x, VInt y => Z.eqb x y
  | VFloat x, VFloat y => Qeq_bool x y
  | VStr x, VStr y => String.eqb x y
  | _, _ => false
  end.

Definition values (s : series) : list value :=
  match s with
  | IntSeries l => map VInt l
  | FloatSeries l => map VFloat l
  | ObjectSeries l => map VStr l
  end.

(** [Series.unique()]: the distinct values in order of first appearance. *)
Fixpoint unique (l : list value) : list value :=
  match l with
  | [] => []
  | x :: xs => x :: filter (fun y => negb (value_eqb x y)) (unique xs)
  end.

(** [Series.nunique()] *)
Definition nunique (s : series) : nat := length (unique (values s)).

(** A list comprehension whose condition may raise. *)
Fixpoint filterM {A : Type} (p : A -> result bool) (l : list A) : result (list A) :=
  match l with
  | [] => Ok []
  | x :: xs =>
      b <- p x ;;
      rest <- filterM p xs ;;
      Ok (if b then x :: rest else rest)
  end.

(** [df.drop(columns=labels)]: every column carrying one of the labels goes;
    a label that names no column is a [KeyError]. *)
Definition drop (df : DataFrame) (labels : list string) : result DataFrame :=
  if forallb (fun l => mem_string l (columns df)) labels
  then Ok (filter (fun c => negb (mem_string (label c) labels)) df)
  else Raise KeyError.

Definition drop_cols_no_cardinality (dataset : DataFrame) : result DataFrame :=
  cols_to_drop <-
    filterM (fun col => s <- getitem dataset col ;; Ok (nunique s <=? 1)%nat)
            (columns dataset) ;;
  drop dataset cols_to_drop.

(** ** Association screener *)

(** [itertools.combinations(l, r)]: the length-[r] subsequences of [l] in
    lexicographic order of positions. *)
Fixpoint combinations {A : Type} (l : list A) (r : nat) {struct l} : list (list A) :=
  match r, l with
  | O, _ => [[]]
  | S _, [] => []
  | S r', x :: xs => map (cons x) (combinations xs r') ++ combinations xs r
  end.

(** Mapping a function that may raise over a list. *)
Fixpoint mapM {A B : Type} (f : A -> result B) (l : list A) : result (list B) :=
  match l with
  | [] => Ok []
  | x :: xs => y <- f x ;; ys <- mapM f xs ;; Ok (y :: ys)
  end.

(** [t[i]] on a tuple. *)
Definition tuple_get (t : list string) (i : nat) : result string :=
  match nth_error t i with
  | Some x => Ok x
  | None => Raise IndexError
  end.

(** Insertion sort with a boolean order; used for the sorted labels of a
    contingency table and for [sort_values]. *)
Fixpoint insert_by {A : Type} (leb : A -> A -> bool) (x : A) (l : list A) : list A :=
  match l with
  | [] => [x]
  | y :: ys => if leb x y then x :: l else y :: insert_by leb x ys
  end.

Fixpoint sort_by {A : Type} (leb : A -> A -> bool) (l : list A) : list A :=
  match l with
  | [] => []
  | x :: xs => insert_by leb x (sort_by leb xs)
  end.

Definition value_leb (a b : value) : bool :=
  match a, b with
  | VInt x, VInt y => Z.leb x y
  | VFloat x, VFloat y => Qle_bool x y
  | VStr x, VStr y => String.leb x y
  | VInt _, _ => true
  | VFloat _, VStr _ => true
  | _, _ => false
  end.

Definition count_pair (r c : value) (index cols : list value) : Z :=
  Z.of_nat (length (filter (fun p => value_eqb r (fst p) && value_eqb c (snd p))
                           (combine index cols))).

(** [pd.crosstab(index, columns)]: one row per distinct value of [index], one
    column per distinct value of [columns], both sorted; each cell counts the
    records carrying that combination. *)
Definition crosstab (index cols : list value) : list (list Z) :=
  let row_labels := sort_by value_leb (unique index) in
  let col_labels := sort_by value_leb (unique cols) in
  map (fun r => map (fun c => count_pair r c index cols) col_labels) row_labels.

Definition Zsum (l : list Z) : Z := fold_right Z.add 0%Z l.
Definition Qsum (l : list Q) : Q := fold_right Qplus 0%Q l.

Definition row_sums (observed : list (list Z)) : list Z := map Zsum observed.

Definition col_sums (observed : list (list Z)) : list Z :=
  map (fun j => Zsum (map (fun row => nth j row 0%Z) observed))
      (seq 0 (length (hd [] observed))).

(** [scipy.stats.contingency.expected_freq]: products of the margins over
    the grand total. *)
Definition expected_freq (observed : list (list Z)) : list (list Q) :=
  let total := Zsum (row_sums observed) in
  map (fun ri => map (fun cj => (inject_Z ri * inject_Z cj / inject_Z total)%Q)
                     (col_sums observed))
      (row_sums observed).

Definition Qsign (q : Q) : Q :=
  if Qle_bool q 0 then (if Qeq_bool q 0 then 0%Q else (-1)%Q) else 1%Q.

Definition Qmin (a b : Q) : Q := if Qle_bool a b then a else b.

(** Yates' continuity correction of one observed cell. *)
Definition yates (o e : Q) : Q :=
  let diff := (e - o)%Q in
  (o + Qmin (1 # 2) (Qabs diff) * Qsign diff)%Q.

(** Pearson's statistic: the sum over the cells of (observed - expected)^2 /
    expected. *)
Definition pearson_statistic (observed expected : list (list Q)) : Q :=
  Qsum (map (fun oe => let o := fst oe in let e := snd oe in
                      ((o - e) * (o - e) / e)%Q)
            (combine (concat observed) (concat expected))).

Section Screener.

(** The survival function of the chi-square distribution
    ([scipy.stats.chi2.sf]) maps a statistic and a number of degrees of
    freedom to a p-value; it is left abstract. *)
Variable chi2_sf : Q -> Z -> Q.

(** [scipy.stats.chi2_contingency(observed)[:2]] with the default
    [correction=True]. *)
Definition chi2_contingency (observed : list (list Z)) : result (Q * Q) :=
  let nrow := length observed in
  let ncol := length (hd [] observed) in
  if existsb (existsb (fun v => (v <? 0)%Z)) observed then Raise ValueError
  else if (nrow * ncol =? 0)%nat then Raise ValueError
  else
    let expected := expected_freq observed in
    if existsb (existsb (fun e => Qeq_bool e 0)) expected then Raise ValueError
    else
      let dof := (Z.of_nat (nrow * ncol) - Z.of_nat (nrow + ncol) + 2 - 1)%Z in
      if (dof =? 0)%Z then Ok (0%Q, 1%Q)
      else
        let observed_q := map (map inject_Z) observed in
        let observed_c :=
          if (dof =? 1)%Z
          then map (fun oe => map (fun p => yates (fst p) (snd p))
                                  (combine (fst oe) (snd oe)))
                   (combine observed_q expected)
          else observed_q in
        let chi2 := pearson_statistic observed_c expected in
        Ok (chi2, chi2_sf chi2 dof).

Record AssociationRecord : Type := Row {
  first_col : string;
  second_col : string;
  chi_square_stat : Q;
  p_value : Q
}.

(** Order of the sort key [(first_col, second_col)]. *)
Definition key_leb (a b : AssociationRecord) : bool :=
  match String.compare (first_col a) (first_col b) with
  | Lt => true
  | Gt => false
  | Eq => String.leb (second_col a) (second_col b)
  end.

(** [df.sort_values(by=['first_col', 'second_col'])] *)
Definition sort_values (df : list AssociationRecord) : list AssociationRecord :=
  sort_by key_leb df.

(** A [for] loop whose body may raise. *)
Fixpoint for_each {A S : Type} (body : S -> A -> result S) (l : list A) (s : S)
  : result S :=
  match l with
  | [] => Ok s
  | x :: xs => s' <- body s x ;; for_each body xs s'
  end.

(** One iteration of the loop over [pairs]. *)
Definition chi_square_step (dataset_categorical : DataFrame) (p_value_threshold : Q)
    (output_df : list AssociationRecord) (pair : list string)
  : result (list AssociationRecord) :=
  pair0 <- tuple_get pair 0 ;;
  index <- getitem dataset_categorical pair0 ;;
  pair1 <- tuple_get pair 1 ;;
  cols <- getitem dataset_categorical pair1 ;;
  let contingency_table := crosstab (values index) (values cols) in
  stat_p <- chi2_contingency contingency_table ;;
  let chi2_stat := fst stat_p in
  let p_val := snd stat_p in
  let output_df :=
    if Qle_bool p_val p_value_threshold
    then output_df ++ [Row pair0 pair1 chi2_stat p_val]
    else output_df in
  Ok (sort_values output_df).

(** The record the loop body builds for a pair, before the threshold is
    looked at. *)
Definition chi_square_record (dataset_categorical : DataFrame) (pair : list string)
  : result AssociationRecord :=
  pair0 <- tuple_get pair 0 ;;
  index <- getitem dataset_categorical pair0 ;;
  pair1 <- tuple_get pair 1 ;;
  cols <- getitem dataset_categorical pair1 ;;
  stat_p <- chi2_contingency (crosstab (values index) (values cols)) ;;
  Ok (Row pair0 pair1 (fst stat_p) (snd stat_p)).

(** The threshold test of the loop body. *)
Definition significant (p_value_threshold : Q) (r : AssociationRecord) : bool :=
  Qle_bool (p_value r) p_value_threshold.

Definition calculate_pair_wise_chi_square_test
    (dataset : DataFrame) (p_value_threshold : Q)
  : result (list AssociationRecord) :=
  dataset_categorical <- extract_categorical_cols dataset ;;
  let pairs := combinations (columns dataset_categorical) 2 in
  let output_df := [] in
  for_each (chi_square_step dataset_categorical p_value_threshold) pairs output_df.

End Screener.

(** ** Numeric views of a frame *)

(** Conversion of a column to floats; text does not convert. *)
Definition to_float (s : series) : result (list Q) :=
  match s with
  | IntSeries l => Ok (map inject_Z l)
  | FloatSeries l => Ok l
  | ObjectSeries _ => Raise ValueError
  end.

Fixpoint to_numeric (df : DataFrame) : result (list (list Q)) :=
  match df with
  | [] => Ok []
  | c :: cs => x <- to_float (data c) ;; xs <- to_numeric cs ;; Ok (x :: xs)
  end.

Definition Qcount (l : list Q) : Q := inject_Z (Z.of_nat (length l)).

Definition mean (l : list Q) : Q := (Qsum l / Qcount l)%Q.

(** Sum of the products of the deviations from the means. *)
Definition sum_dev_prod (x y : list Q) : Q :=
  let mx := mean x in
  let my := mean y in
  Qsum (map (fun p => ((fst p - mx) * (snd p - my))%Q) (combine x y)).

(** Population variance (divisor [n]). *)
Definition variance (l : list Q) : Q := (sum_dev_prod l l / Qcount l)%Q.

(** ** Standardizer *)

(** [StandardScaler] divides by the standard deviation, except that a
    feature of zero variance is given scale 1. *)
Definition scale_ (l : list Q) : R :=
  if Qeq_bool (variance l) 0 then 1%R else sqrt (Q2R (variance l)).

Definition scale_column (l : list Q) : list R :=
  map (fun x => (Q2R (x - mean l) / scale_ l)%R) l.

(** [StandardScaler().fit_transform(df)]: the input check rejects text and
    frames without rows or without columns. *)
Definition fit_transform (df : DataFrame) : result (list (list R)) :=
  X <- to_numeric df ;;
  if (length (hd [] X) =? 0)%nat then Raise ValueError
  else if (length X =? 0)%nat then Raise ValueError
  else Ok (map scale_column X).

(** A frame of floats: labelled columns of reals. *)
Definition FloatFrame : Type := list (string * list R).

Definition standardize_numeric_variables (dataset : DataFrame) : result FloatFrame :=
  dataset_numeric <- extract_numerical_cols dataset ;;
  standardized_data <- fit_transform dataset_numeric ;;
  Ok (combine (columns dataset_numeric) standardized_data).

(** ** Correlation engine *)

(** Pearson's product-moment coefficient of two columns; [None] is NaN: no
    observation, or a zero divisor. *)
Definition pearson (x y : list Q) : option R :=
  if (length x =? 0)%nat then None
  else
    let ssqdm := (sum_dev_prod x x * sum_dev_prod y y)%Q in
    if Qeq_bool ssqdm 0 then None
    else Some (Q2R (sum_dev_prod x y) / sqrt (Q2R ssqdm))%R.

Record Matrix : Type := { axis : list string; cells : list (list (option R)) }.

(** [df.corr(method='pearson')] *)
Definition corr (df : DataFrame) : result Matrix :=
  X <- to_numeric df ;;
  Ok {| axis := columns df;
        cells := map (fun x => map (fun y => pearson x y) X) X |}.

(** Round half to even to the nearest integer. *)
Definition rint (r : R) : Z :=
  let f := Int_part r in
  let d := frac_part r in
  if Rlt_dec d (1 / 2) then f
  else if Rlt_dec (1 / 2) d then (f + 1)%Z
  else if Z.even f then f else (f + 1)%Z.

(** [numpy.round(r, decimals)] for a positive number of decimals. *)
Definition round_to (decimals : nat) (r : R) : R :=
  (IZR (rint (r * IZR (10 ^ Z.of_nat decimals))) / IZR (10 ^ Z.of_nat decimals))%R.

(** [m.round(decimals)]; NaN stays NaN. *)
Definition round (decimals : nat) (m : Matrix) : Matrix :=
  {| axis := axis m;
     cells := map (map (option_map (round_to decimals))) (cells m) |}.

(** [m.iloc[i, j]]; a position outside the matrix reads as NaN. *)
Definition cell (m : Matrix) (i j : nat) : option R :=
  nth j (nth i (cells m) []) None.

Definition calculate_pair_wise_correlation (dataset : DataFrame) : result Matrix :=
  dataset_numeric <- extract_numerical_cols dataset ;;
  corr_matrix <- corr dataset_numeric ;;
  Ok (round 2 corr_matrix).

(** ** Well-formed frames *)

(** Every column has [n] cells. *)
Definition series_length (s : series) : nat := length (values s).

Definition rectangular (n : nat) (df : DataFrame) : Prop :=
  Forall (fun c => series_length (data c) = n) df.

(** The frame of the module's unit tests. *)
Definition test_data : DataFrame :=
  [ Column "Age" (IntSeries [25; 30; 35]%Z);
    Column "PatientID" (IntSeries [1; 2; 3]%Z);
    Column "Category1" (IntSeries [0; 1; 0]%Z);
    Column "Category2" (IntSeries [1; 0; 1]%Z);
    Column "NumericCol" (FloatSeries [105 # 10; 203 # 10; 301 # 10]%Q);
    Column "NoCardinalityCol" (ObjectSeries ["text"; "text"; "text"]) ].

(** [a] occurs before [b] in [l]. *)
Definition precedes {A : Type} (a b : A) (l : list A) : Prop :=
  exists l1 l2 l3, l = l1 ++ a :: l2 ++ b :: l3.

(** A frame whose age column is stored as float. *)
Definition float_age_data : DataFrame :=
  [ Column "Age" (FloatSeries [25; 30; 35]%Q);
    Column "Category1" (IntSeries [0; 1; 0]%Z);
    Column "NumericCol" (FloatSeries [105 # 10; 203 # 10; 301 # 10]%Q) ].

(** A frame with a constant categorical column. *)
Definition constant_category_data : DataFrame :=
  [ Column "A" (IntSeries [0; 0]%Z);
    Column "B" (IntSeries [0; 1]%Z) ].

(** A frame whose float column is constant. *)
Definition constant_numeric_data : DataFrame :=
  [ Column "Age" (IntSeries [25; 30; 35]%Z);
    Column "NumericCol" (FloatSeries [105 # 10; 105 # 10; 105 # 10]%Q) ].

(** A frame without records. *)
Definition empty_data : DataFrame :=
  [ Column "Age" (IntSeries []);
    Column "Category1" (IntSeries []);
    Column "Category2" (IntSeries []) ].

(** A frame whose age column is constant. *)
Definition constant_age_data : DataFrame :=
  [ Column "Age" (IntSeries [30; 30; 30]%Z);
    Column "Category1" (IntSeries [0; 1; 0]%Z);
    Column "NumericCol" (FloatSeries [105 # 10; 203 # 10; 301 # 10]%Q) ].




(** * Properties *)

(** ** The unit tests of the module *)

Example test_extract_categorical_cols :
  extract_categorical_cols test_data =
  Ok [ Column "Category1" (IntSeries [0; 1; 0]%Z);
       Column "Category2" (IntSeries [1; 0; 1]%Z) ].
Proof. reflexivity. Qed.

Example test_extract_numerical_cols :
  extract_numerical_cols test_data =
  Ok [ Column "NumericCol" (FloatSeries [105 # 10; 203 # 10; 301 # 10]%Q);
       Column "Age" (IntSeries [25; 30; 35]%Z) ].
Proof. reflexivity. Qed.

Example test_drop_cols_no_cardinality :
  drop_cols_no_cardinality test_data =
  Ok [ Column "Age" (IntSeries [25; 30; 35]%Z);
       Column "PatientID" (IntSeries [1; 2; 3]%Z);
       Column "Category1" (IntSeries [0; 1; 0]%Z);
       Column "Category2" (IntSeries [1; 0; 1]%Z);
       Column "NumericCol" (FloatSeries [105 # 10; 203 # 10; 301 # 10]%Q) ].
Proof. reflexivity. Qed.

(** ** Label lookup *)

Lemma lookup_label_absent (df : DataFrame) (key : string) :
  ~ In key (columns df) -> lookup_label df key = [].
Proof.
  induction df as [|c df IH]; simpl; intros H; [reflexivity|].
  destruct (String.eqb_spec (label c) key) as [E|E].
  - exfalso. apply H. now left.
  - apply IH. intros Hin. apply H. now right.
Qed.

Lemma lookup_label_present (df : DataFrame) (key : string) :
  In key (columns df) -> lookup_label df key <> [].
Proof.
  induction df as [|c df IH]; simpl; intros H; [contradiction|].
  destruct (String.eqb_spec (label c) key) as [E|E]; [discriminate|].
  destruct H as [H|H]; [contradiction|]. now apply IH.
Qed.

Lemma lookup_label_unique (df : DataFrame) (c : column) :
  NoDup (columns df) -> In c df -> lookup_label df (label c) = [c].
Proof.
  induction df as [|a df IH]; simpl; intros Hnd Hin; [contradiction|].
  inversion Hnd as [|x l Hnotin Hnd']; subst.
  destruct Hin as [->|Hin].
  - rewrite String.eqb_refl. f_equal.
    now apply lookup_label_absent.
  - destruct (String.eqb_spec (label a) (label c)) as [E|E].
    + exfalso. apply Hnotin. rewrite E. now apply in_map.
    + now apply IH.
Qed.

Lemma getitem_list_app (df : DataFrame) (k1 k2 : list string) :
  getitem_list df (k1 ++ k2) =
  (a <- getitem_list df k1 ;; b <- getitem_list df k2 ;; Ok (a ++ b)).
Proof.
  induction k1 as [|k k1 IH]; simpl.
  - destruct (getitem_list df k2); reflexivity.
  - destruct (lookup_label df k) as [|c found]; [reflexivity|].
    rewrite IH.
    destruct (getitem_list df k1) as [a|e]; simpl; [|reflexivity].
    destruct (getitem_list df k2) as [b|e]; simpl; [|reflexivity].
    now rewrite app_assoc.
Qed.

Lemma getitem_list_labels (df l : DataFrame) :
  NoDup (columns df) -> incl l df -> getitem_list df (map label l) = Ok l.
Proof.
  intros Hnd. induction l as [|c l IH]; simpl; intros Hincl; [reflexivity|].
  rewrite (lookup_label_unique df c Hnd) by (apply Hincl; now left).
  rewrite IH by (intros x Hx; apply Hincl; now right).
  reflexivity.
Qed.

Lemma getitem_list_total (df : DataFrame) (keys : list string) :
  incl keys (columns df) -> exists out, getitem_list df keys = Ok out.
Proof.
  induction keys as [|k keys IH]; simpl; intros Hincl.
  - now exists [].
  - destruct IH as [rest Hrest]; [intros x Hx; apply Hincl; now right|].
    pose proof (lookup_label_present df k (Hincl k (or_introl eq_refl))) as Hne.
    destruct (lookup_label df k) as [|c found]; [contradiction|].
    rewrite Hrest. simpl. eauto.
Qed.

Lemma getitem_list_missing (df : DataFrame) (k1 : list string) (k : string) :
  ~ In k (columns df) -> incl k1 (columns df) ->
  getitem_list df (k1 ++ [k]) = Raise KeyError.
Proof.
  intros Hk Hincl. rewrite getitem_list_app.
  destruct (getitem_list_total df k1 Hincl) as [a ->]. simpl.
  now rewrite lookup_label_absent.
Qed.

Lemma columns_filter (p : string -> bool) (df : DataFrame) :
  filter p (columns df) = columns (filter (fun c => p (label c)) df).
Proof.
  induction df as [|c df IH]; simpl; [reflexivity|].
  destruct (p (label c)); simpl; now rewrite IH.
Qed.

Lemma NoDup_columns_filter (p : column -> bool) (df : DataFrame) :
  NoDup (columns df) -> NoDup (columns (filter p df)).
Proof.
  induction df as [|c df IH]; simpl; intros Hnd; [constructor|].
  inversion Hnd as [|x l Hnotin Hnd']; subst.
  destruct (p c); simpl; [|now apply IH].
  constructor; [|now apply IH].
  intros Hin. apply Hnotin. unfold columns in *.
  apply in_map_iff in Hin. destruct Hin as [d [Hd Hin]].
  apply filter_In in Hin. rewrite <- Hd. apply in_map. tauto.
Qed.

Lemma filter_twice {A : Type} (p q : A -> bool) (l : list A) :
  filter q (filter p l) = filter (fun x => p x && q x) l.
Proof.
  induction l as [|x l IH]; simpl; [reflexivity|].
  destruct (p x); simpl; [destruct (q x)|]; now rewrite IH.
Qed.

Lemma in_columns (df : DataFrame) (name : string) :
  In name (columns df) <-> exists c, In c df /\ label c = name.
Proof.
  unfold columns. rewrite in_map_iff. firstorder.
Qed.

(** ** Column classifier *)

(** The categorical subset never fails, whatever the labels of the frame. *)
Lemma extract_categorical_cols_total (dataset : DataFrame) :
  exists out, extract_categorical_cols dataset = Ok out.
Proof.
  unfold extract_categorical_cols. apply getitem_list_total.
  intros k Hk. apply filter_In in Hk. tauto.
Qed.

Lemma extract_categorical_cols_filter (dataset : DataFrame) :
  NoDup (columns dataset) ->
  extract_categorical_cols dataset =
  Ok (filter (fun c => dtype_eqb (dtype_of (data c)) int64
                       && negb (mem_string (label c) ["Age"; "PatientID"]))
             dataset).
Proof.
  intros Hnd. unfold extract_categorical_cols.
  rewrite columns_filter.
  rewrite getitem_list_labels.
  - unfold select_dtypes. now rewrite filter_twice.
  - now apply NoDup_columns_filter.
  - apply incl_filter.
Qed.

(** C4: on a frame with unique labels the categorical subset is returned
    without failure and consists of exactly the integer-typed columns whose
    label is neither "Age" nor "PatientID", in frame order; nothing requires
    those two labels to be present. *)
Theorem extract_categorical_cols_spec (dataset : DataFrame) :
  NoDup (columns dataset) ->
  extract_categorical_cols dataset =
  Ok (filter (fun c => dtype_eqb (dtype_of (data c)) int64
                       && negb (mem_string (label c) ["Age"; "PatientID"]))
             dataset).
Proof.
  intros Hnd. unfold extract_categorical_cols.
  set (dataset_cat := select_dtypes int64 dataset).
  assert (Hcat : NoDup (columns dataset_cat)) by now apply NoDup_columns_filter.
  rewrite columns_filter.
  rewrite (getitem_list_labels dataset_cat _ Hcat) by apply incl_filter.
  unfold dataset_cat, select_dtypes. now rewrite filter_twice.
Qed.

Lemma extract_numerical_cols_present (dataset : DataFrame) (age : column) :
  NoDup (columns dataset) -> In age dataset -> label age = "Age" ->
  extract_numerical_cols dataset = Ok (select_dtypes float64 dataset ++ [age]).
Proof.
  intros Hnd Hin Hl.
  unfold extract_numerical_cols. rewrite <- Hl.
  change (columns (select_dtypes float64 dataset) ++ [label age])
    with (map label (select_dtypes float64 dataset) ++ map label [age]).
  rewrite <- map_app. apply getitem_list_labels; trivial.
  apply incl_app; [apply incl_filter|].
  intros x [<-|[]]. exact Hin.
Qed.

Lemma extract_numerical_cols_absent (dataset : DataFrame) :
  ~ In "Age" (columns dataset) ->
  extract_numerical_cols dataset = Raise KeyError.
Proof.
  intros Habs. unfold extract_numerical_cols.
  apply getitem_list_missing; trivial.
  intros k Hk. apply in_columns in Hk. destruct Hk as [c [Hc <-]].
  apply in_map. apply filter_In in Hc. tauto.
Qed.


Ltac distinct_labels :=
  repeat (constructor; [simpl; intuition discriminate|]); constructor.

Lemma test_data_labels : NoDup (columns test_data).
Proof. distinct_labels. Qed.

Lemma extract_categorical_cols_spec_witness :
  extract_categorical_cols test_data =
  Ok [ Column "Category1" (IntSeries [0; 1; 0]%Z);
       Column "Category2" (IntSeries [1; 0; 1]%Z) ].
Proof.
  exact (extract_categorical_cols_spec test_data test_data_labels).
Defined.


(** C10: when the age column is stored as float, it is selected among the
    float columns and appended once more, so the label "Age" occurs twice in
    the result and the labels of the result are no longer unique. *)
Theorem extract_numerical_cols_float_age (dataset : DataFrame) (age : column) :
  NoDup (columns dataset) ->
  In age dataset -> label age = "Age" -> dtype_of (data age) = float64 ->
  In age (select_dtypes float64 dataset) /\
  extract_numerical_cols dataset = Ok (select_dtypes float64 dataset ++ [age]) /\
  count_occ string_dec (columns (select_dtypes float64 dataset ++ [age])) "Age" = 2 /\
  ~ NoDup (columns (select_dtypes float64 dataset ++ [age])).
Proof.
  intros Hnd Hin Hl Hty.
  assert (Hsel : In age (select_dtypes float64 dataset)).
  { apply filter_In. split; trivial. now rewrite Hty. }
  assert (Hocc : count_occ string_dec (columns (select_dtypes float64 dataset)) "Age" = 1).
  { apply NoDup_count_occ'.
    - now apply NoDup_columns_filter.
    - rewrite <- Hl. now apply in_map. }
  assert (Hcnt : count_occ string_dec
            (columns (select_dtypes float64 dataset ++ [age])) "Age" = 2).
  { unfold columns in *. rewrite map_app, count_occ_app, Hocc. simpl.
    rewrite Hl. now destruct (string_dec "Age" "Age"). }
  repeat split; trivial.
  - now apply extract_numerical_cols_present.
  - intros Hnd2.
    pose proof (proj1 (NoDup_count_occ string_dec _) Hnd2 "Age") as Hle.
    rewrite Hcnt in Hle. lia.
Qed.

Lemma extract_numerical_cols_float_age_witness :
  let age := Column "Age" (FloatSeries [25; 30; 35]%Q) in
  In age (select_dtypes float64 float_age_data) /\
  extract_numerical_cols float_age_data =
    Ok (select_dtypes float64 float_age_data ++ [age]) /\
  count_occ string_dec
    (columns (select_dtypes float64 float_age_data ++ [age])) "Age" = 2 /\
  ~ NoDup (columns (select_dtypes float64 float_age_data ++ [age])).
Proof.
  intro age.
  apply (extract_numerical_cols_float_age float_age_data age).
  - distinct_labels.
  - simpl. now left.
  - reflexivity.
  - reflexivity.
Defined.

(** C9: on a frame with unique labels the categorical subset is returned,
    and whenever the numerical subset is returned as well the two share no
    label (the numerical subset is only missing when "Age" is absent). *)
Theorem classification_disjoint (dataset : DataFrame) :
  NoDup (columns dataset) ->
  exists cat, extract_categorical_cols dataset = Ok cat /\
    match extract_numerical_cols dataset with
    | Ok num => forall name, In name (columns cat) -> ~ In name (columns num)
    | Raise _ => ~ In "Age" (columns dataset)
    end.
Proof.
  intros Hnd. eexists. split; [now apply extract_categorical_cols_filter|].
  destruct (in_dec string_dec "Age" (columns dataset)) as [Hage|Hage].
  - pose proof Hage as Hage'. apply in_columns in Hage'.
    destruct Hage' as [age [Hin Hl]].
    rewrite (extract_numerical_cols_present dataset age Hnd Hin Hl).
    intros name Hcat Hnum.
    apply in_columns in Hcat. destruct Hcat as [c [Hc Hcl]].
    apply filter_In in Hc. destruct Hc as [Hc Hp].
    apply andb_true_iff in Hp. destruct Hp as [Hint Hexcl].
    apply in_columns in Hnum. destruct Hnum as [d [Hd Hdl]].
    assert (Hcd : c = d \/ d = age).
    { apply in_app_or in Hd. destruct Hd as [Hd|[Hd|[]]].
      - left. apply filter_In in Hd. destruct Hd as [Hd _].
        pose proof (lookup_label_unique dataset c Hnd Hc) as H1.
        pose proof (lookup_label_unique dataset d Hnd Hd) as H2.
        rewrite Hcl in H1. rewrite Hdl in H2. congruence.
      - now right. }
    destruct Hcd as [Hcd|Hcd].
    + subst d. apply in_app_or in Hd. destruct Hd as [Hd|[Hd|[]]].
      * apply filter_In in Hd. destruct Hd as [_ Hfl].
        destruct (dtype_of (data c)); discriminate.
      * subst c. rewrite Hl in Hexcl. discriminate.
    + subst d. rewrite Hcl, <- Hdl, Hl in Hexcl. discriminate.
  - now rewrite (extract_numerical_cols_absent dataset Hage).
Qed.

Lemma classification_disjoint_witness :
  exists cat, extract_categorical_cols test_data = Ok cat /\
    match extract_numerical_cols test_data with
    | Ok num => forall name, In name (columns cat) -> ~ In name (columns num)
    | Raise _ => ~ In "Age" (columns test_data)
    end.
Proof.
  exact (classification_disjoint test_data test_data_labels).
Defined.

(** ** Cardinality filter *)

Lemma label_inj (df : DataFrame) (c d : column) :
  NoDup (columns df) -> In c df -> In d df -> label c = label d -> c = d.
Proof.
  intros Hnd Hc Hd E.
  pose proof (lookup_label_unique df c Hnd Hc) as H1.
  pose proof (lookup_label_unique df d Hnd Hd) as H2.
  rewrite E in H1. congruence.
Qed.

Lemma getitem_unique (df : DataFrame) (c : column) :
  NoDup (columns df) -> In c df -> getitem df (label c) = Ok (data c).
Proof.
  intros Hnd Hc. unfold getitem. now rewrite lookup_label_unique.
Qed.

Lemma mem_string_In (s : string) (l : list string) :
  mem_string s l = true <-> In s l.
Proof.
  unfold mem_string. rewrite existsb_exists. split.
  - intros [x [Hx E]]. apply String.eqb_eq in E. now subst.
  - intros H. exists s. split; trivial. apply String.eqb_refl.
Qed.

Lemma filterM_getitem (df l : DataFrame) (p : series -> bool) :
  NoDup (columns df) -> incl l df ->
  filterM (fun col => s <- getitem df col ;; Ok (p s)) (columns l) =
  Ok (columns (filter (fun c => p (data c)) l)).
Proof.
  intros Hnd. induction l as [|c l IH]; simpl; intros Hincl; [reflexivity|].
  rewrite getitem_unique; trivial; [|apply Hincl; now left].
  fold (columns l). rewrite IH by (intros x Hx; apply Hincl; now right).
  simpl. now destruct (p (data c)).
Qed.

Lemma drop_labels_of_filter (df : DataFrame) (p : column -> bool) :
  NoDup (columns df) ->
  drop df (columns (filter p df)) = Ok (filter (fun c => negb (p c)) df).
Proof.
  intros Hnd. unfold drop.
  replace (forallb _ _) with true.
  - f_equal. apply filter_ext_in. intros c Hc. f_equal.
    apply eq_true_iff_eq. rewrite mem_string_In, in_columns. split.
    + intros [d [Hd E]]. apply filter_In in Hd. destruct Hd as [Hd Hp].
      now rewrite <- (label_inj df d c Hnd Hd Hc E).
    + intros Hp. exists c. split; trivial. apply filter_In. now split.
  - symmetry. apply forallb_forall. intros k Hk. apply mem_string_In.
    apply in_columns in Hk. destruct Hk as [c [Hc <-]].
    apply in_map. apply filter_In in Hc. tauto.
Qed.

Lemma drop_cols_no_cardinality_filter (dataset : DataFrame) :
  NoDup (columns dataset) ->
  drop_cols_no_cardinality dataset =
  Ok (filter (fun c => negb (nunique (data c) <=? 1)%nat) dataset).
Proof.
  intros Hnd. unfold drop_cols_no_cardinality.
  rewrite (filterM_getitem dataset dataset (fun s => (nunique s <=? 1)%nat) Hnd)
    by apply incl_refl.
  simpl. now apply drop_labels_of_filter.
Qed.

(** C8: on a frame with unique labels the filter returns the columns whose
    number of distinct values exceeds 1, in frame order, and applying it to
    its own result returns that result again. *)
Theorem drop_cols_no_cardinality_idempotent (dataset : DataFrame) :
  NoDup (columns dataset) ->
  exists once,
    drop_cols_no_cardinality dataset = Ok once /\
    once = filter (fun c => negb (nunique (data c) <=? 1)%nat) dataset /\
    drop_cols_no_cardinality once = Ok once.
Proof.
  intros Hnd. eexists. split; [now apply drop_cols_no_cardinality_filter|].
  split; [reflexivity|].
  rewrite drop_cols_no_cardinality_filter by now apply NoDup_columns_filter.
  rewrite filter_twice. apply f_equal. apply filter_ext. intros c.
  now destruct (negb _).
Qed.

Lemma drop_cols_no_cardinality_idempotent_witness :
  exists once,
    drop_cols_no_cardinality test_data = Ok once /\
    once = filter (fun c => negb (nunique (data c) <=? 1)%nat) test_data /\
    drop_cols_no_cardinality once = Ok once.
Proof.
  exact (drop_cols_no_cardinality_idempotent test_data test_data_labels).
Defined.

(** ** Pair enumeration *)

Lemma combinations_1 {A : Type} (l : list A) :
  combinations l 1 = map (fun x => [x]) l.
Proof.
  induction l as [|x l IH]; simpl; [reflexivity|].
  rewrite IH. now destruct l.
Qed.

Lemma combinations_2_cons {A : Type} (x : A) (l : list A) :
  combinations (x :: l) 2 = map (fun y => [x; y]) l ++ combinations l 2.
Proof.
  change (combinations (x :: l) 2)
    with (map (cons x) (combinations l 1) ++ combinations l 2).
  now rewrite combinations_1, map_map.
Qed.


Lemma combinations_2_In {A : Type} (l : list A) (p : list A) :
  In p (combinations l 2) <-> exists a b, p = [a; b] /\ precedes a b l.
Proof.
  revert p. induction l as [|x l IH]; intros p.
  - simpl. split; [contradiction|].
    intros [a [b [_ [l1 [l2 [l3 H]]]]]]. now destruct l1.
  - rewrite combinations_2_cons, in_app_iff, in_map_iff, IH. split.
    + intros [[y [<- Hy]]|[a [b [-> [l1 [l2 [l3 ->]]]]]]].
      * apply in_split in Hy. destruct Hy as [l2 [l3 ->]].
        exists x, y. split; trivial. now exists [], l2, l3.
      * exists a, b. split; trivial. now exists (x :: l1), l2, l3.
    + intros [a [b [-> [l1 [l2 [l3 H]]]]]].
      destruct l1 as [|x' l1]; simpl in H; injection H as -> ->.
      * left. exists b. split; trivial. apply in_or_app. right. now left.
      * right. exists a, b. split; trivial. now exists l1, l2, l3.
Qed.

Lemma precedes_In {A : Type} (a b : A) (l : list A) :
  precedes a b l -> In a l /\ In b l.
Proof.
  intros [l1 [l2 [l3 ->]]]. split.
  - apply in_or_app. right. now left.
  - apply in_or_app. right. right. apply in_or_app. right. now left.
Qed.

Lemma precedes_cons {A : Type} (x a b : A) (l : list A) :
  precedes a b (x :: l) <-> (a = x /\ In b l) \/ precedes a b l.
Proof.
  split.
  - intros [l1 [l2 [l3 H]]]. destruct l1 as [|x' l1]; simpl in H; injection H as -> ->.
    + left. split; trivial. apply in_or_app. right. now left.
    + right. now exists l1, l2, l3.
  - intros [[-> Hb]|[l1 [l2 [l3 ->]]]].
    + apply in_split in Hb. destruct Hb as [l2 [l3 ->]]. now exists [], l2, l3.
    + now exists (x :: l1), l2, l3.
Qed.

Lemma precedes_asym {A : Type} (a b : A) (l : list A) :
  NoDup l -> precedes a b l -> a <> b /\ ~ precedes b a l.
Proof.
  induction l as [|x l IH]; intros Hnd H.
  - destruct H as [l1 [l2 [l3 H]]]. now destruct l1.
  - inversion Hnd as [|y l' Hx Hnd']; subst.
    apply precedes_cons in H. destruct H as [[-> Hb]|H].
    + split; [intros <-; contradiction|].
      intros H2. apply precedes_cons in H2. destruct H2 as [[-> _]|H2].
      * contradiction.
      * apply precedes_In in H2. tauto.
    + destruct (IH Hnd' H) as [Hab Hba]. split; trivial.
      intros H2. apply precedes_cons in H2. destruct H2 as [[-> _]|H2].
      * apply precedes_In in H. tauto.
      * contradiction.
Qed.

Lemma combinations_2_NoDup {A : Type} (l : list A) :
  NoDup l -> NoDup (combinations l 2).
Proof.
  induction l as [|x l IH]; intros Hnd; [constructor|].
  inversion Hnd as [|y l' Hx Hnd']; subst.
  rewrite combinations_2_cons. apply NoDup_app.
  - clear IH Hx Hnd. induction Hnd' as [|y l Hy Hl IHl]; simpl; constructor; trivial.
    intros Hin. apply in_map_iff in Hin. destruct Hin as [z [E Hz]].
    injection E as ->. contradiction.
  - now apply IH.
  - intros p Hp Hq. apply in_map_iff in Hp. destruct Hp as [y [<- Hy]].
    apply combinations_2_In in Hq. destruct Hq as [a [b [E H]]].
    injection E as <- <-. apply precedes_In in H. tauto.
Qed.

(** ** Insertion sort *)

Section SortBy.

Variable A : Type.
Variable leb : A -> A -> bool.
Hypothesis leb_total : forall x y, leb x y = false -> leb y x = true.

Let le (x y : A) : Prop := leb x y = true.

Lemma insert_by_perm (x : A) (l : list A) :
  Permutation (insert_by leb x l) (x :: l).
Proof.
  induction l as [|y l IH]; simpl; [reflexivity|].
  destruct (leb x y); [reflexivity|].
  rewrite IH. apply perm_swap.
Qed.

Lemma sort_by_perm (l : list A) : Permutation (sort_by leb l) l.
Proof.
  induction l as [|x l IH]; simpl; [reflexivity|].
  rewrite insert_by_perm. now constructor.
Qed.

Lemma sort_by_length (l : list A) : length (sort_by leb l) = length l.
Proof. apply Permutation_length, sort_by_perm. Qed.

Lemma sort_by_In (x : A) (l : list A) : In x (sort_by leb l) <-> In x l.
Proof.
  split; apply Permutation_in; [|symmetry]; apply sort_by_perm.
Qed.

Lemma insert_by_sorted (x : A) (l : list A) :
  Sorted le l -> Sorted le (insert_by leb x l).
Proof.
  induction 1 as [|y l Hl IH Hy]; simpl.
  - repeat constructor.
  - destruct (leb x y) eqn:E.
    + repeat constructor; trivial.
    + constructor; trivial.
      destruct l as [|z l]; simpl.
      * constructor. now apply leb_total.
      * destruct (leb x z); constructor.
        -- now apply leb_total.
        -- now inversion Hy.
Qed.

Lemma sort_by_sorted (l : list A) : Sorted le (sort_by leb l).
Proof.
  induction l as [|x l IH]; simpl; [constructor|].
  now apply insert_by_sorted.
Qed.

End SortBy.

Lemma key_leb_total (a b : AssociationRecord) :
  key_leb a b = false -> key_leb b a = true.
Proof.
  unfold key_leb, String.leb.
  rewrite (String.compare_antisym (first_col a) (first_col b)).
  rewrite (String.compare_antisym (second_col a) (second_col b)).
  destruct (String.compare (first_col b) (first_col a)); simpl; try congruence.
  destruct (String.compare (second_col b) (second_col a)); simpl; congruence.
Qed.

Lemma sort_values_sorted (df : list AssociationRecord) :
  Sorted (fun a b => key_leb a b = true) (sort_values df).
Proof. apply sort_by_sorted, key_leb_total. Qed.

Lemma sort_values_perm (df : list AssociationRecord) :
  Permutation (sort_values df) df.
Proof. apply sort_by_perm. Qed.

(** ** The loop of the screener *)

Section ScreenerLoop.

Variable chi2_sf : Q -> Z -> Q.
Variable cat : DataFrame.
Variable thr : Q.

Lemma chi_square_step_record (output_df : list AssociationRecord) (pair : list string) :
  chi_square_step chi2_sf cat thr output_df pair =
  (r <- chi_square_record chi2_sf cat pair ;;
   Ok (sort_values (if significant thr r then output_df ++ [r] else output_df))).
Proof.
  unfold chi_square_step, chi_square_record, significant.
  destruct (tuple_get pair 0) as [p0|]; simpl; [|reflexivity].
  destruct (getitem cat p0) as [x|]; simpl; [|reflexivity].
  destruct (tuple_get pair 1) as [p1|]; simpl; [|reflexivity].
  destruct (getitem cat p1) as [y|]; simpl; [|reflexivity].
  destruct (chi2_contingency chi2_sf _) as [[stat p]|]; reflexivity.
Qed.

(** Every iteration leaves the accumulated frame sorted, so the frame
    returned after the last pair is the sorted selection of the records. *)
Lemma for_each_chi_square_step (pairs : list (list string)) :
  forall (rows acc : list AssociationRecord),
    mapM (chi_square_record chi2_sf cat) pairs = Ok rows ->
    Sorted (fun a b => key_leb a b = true) acc ->
    exists out,
      for_each (chi_square_step chi2_sf cat thr) pairs acc = Ok out /\
      Permutation out (acc ++ filter (significant thr) rows) /\
      Sorted (fun a b => key_leb a b = true) out.
Proof.
  induction pairs as [|pair pairs IH]; simpl; intros rows acc Hrows Hacc.
  - injection Hrows as <-. exists acc. simpl. rewrite app_nil_r. auto.
  - rewrite chi_square_step_record.
    destruct (chi_square_record chi2_sf cat pair) as [r|]; simpl in *; [|discriminate].
    destruct (mapM (chi_square_record chi2_sf cat) pairs) as [rs|] eqn:Hrs;
      simpl in *; [|discriminate].
    injection Hrows as <-.
    destruct (IH rs (sort_values (if significant thr r then acc ++ [r] else acc))
                eq_refl (sort_values_sorted _)) as [out [Hout [Hperm Hs]]].
    exists out. repeat split; trivial.
    rewrite Hperm, sort_values_perm. simpl.
    destruct (significant thr r); simpl; [|reflexivity].
    now rewrite <- app_assoc.
Qed.

(** The loop returns only if every pair has yielded a record. *)
Lemma for_each_chi_square_step_returns (pairs : list (list string)) :
  forall (acc out : list AssociationRecord),
    for_each (chi_square_step chi2_sf cat thr) pairs acc = Ok out ->
    exists rows, mapM (chi_square_record chi2_sf cat) pairs = Ok rows.
Proof.
  induction pairs as [|pair pairs IH]; simpl; intros acc out H.
  - now exists [].
  - rewrite chi_square_step_record in H.
    destruct (chi_square_record chi2_sf cat pair) as [r|]; simpl in *; [|discriminate].
    destruct (IH _ _ H) as [rows ->]. simpl. eauto.
Qed.

End ScreenerLoop.

(** ** Contingency tables *)

Lemma value_eqb_refl (v : value) : value_eqb v v = true.
Proof.
  destruct v; simpl.
  - apply Z.eqb_refl.
  - apply Qeq_bool_iff. reflexivity.
  - apply String.eqb_refl.
Qed.

Lemma value_eqb_trans (a b c : value) :
  value_eqb a b = true -> value_eqb b c = true -> value_eqb a c = true.
Proof.
  destruct a, b, c; simpl; try discriminate.
  - rewrite !Z.eqb_eq. congruence.
  - rewrite !Qeq_bool_iff. intros H1 H2. now rewrite H1.
  - rewrite !String.eqb_eq. congruence.
Qed.

Lemma unique_In (v : value) (l : list value) : In v (unique l) -> In v l.
Proof.
  induction l as [|x l IH]; simpl; [trivial|].
  intros [H|H]; [now left|].
  apply filter_In in H. right. tauto.
Qed.

Lemma unique_repr (v : value) (l : list value) :
  In v l -> exists c, In c (unique l) /\ value_eqb c v = true.
Proof.
  induction l as [|x l IH]; simpl; [contradiction|].
  intros [->|H].
  - exists v. split; [now left|apply value_eqb_refl].
  - destruct (IH H) as [c [Hc E]].
    destruct (value_eqb x c) eqn:Exc.
    + exists x. split; [now left|]. now apply (value_eqb_trans x c v).
    + exists c. split; trivial. right. apply filter_In. now rewrite Exc.
Qed.

Lemma Zsum_ge (l : list Z) (x : Z) :
  Forall (fun z => 0 <= z)%Z l -> In x l -> (x <= Zsum l)%Z.
Proof.
  induction 1 as [|z l Hz Hl IH]; simpl; [contradiction|].
  assert (0 <= Zsum l)%Z.
  { clear IH. induction Hl; simpl; lia. }
  intros [->|Hin]; [lia|]. specialize (IH Hin). lia.
Qed.

Lemma count_pair_nonneg (r c : value) (x y : list value) :
  (0 <= count_pair r c x y)%Z.
Proof. unfold count_pair. lia. Qed.

Lemma count_pair_pos (r c u v : value) (x y : list value) :
  In (u, v) (combine x y) ->
  value_eqb r u = true -> value_eqb c v = true ->
  (0 < count_pair r c x y)%Z.
Proof.
  intros Hin Hr Hc. unfold count_pair.
  assert (H : In (u, v)
                 (filter (fun p => value_eqb r (fst p) && value_eqb c (snd p))
                         (combine x y))).
  { apply filter_In. split; trivial. simpl. now rewrite Hr, Hc. }
  destruct (filter _ _); [contradiction|]. simpl. lia.
Qed.

Lemma in_combine_left {A B : Type} (a : A) (x : list A) (y : list B) :
  length x = length y -> In a x -> exists b, In (a, b) (combine x y).
Proof.
  revert y. induction x as [|a' x IH]; intros [|b' y] Hlen Hin;
    simpl in *; try contradiction; try discriminate.
  destruct Hin as [->|Hin].
  - exists b'. now left.
  - destruct (IH y) as [b Hb]; [lia|trivial|]. exists b. now right.
Qed.

Lemma in_combine_right {A B : Type} (b : B) (x : list A) (y : list B) :
  length x = length y -> In b y -> exists a, In (a, b) (combine x y).
Proof.
  revert y. induction x as [|a' x IH]; intros [|b' y] Hlen Hin;
    simpl in *; try contradiction; try discriminate.
  destruct Hin as [->|Hin].
  - exists a'. now left.
  - destruct (IH y) as [a Ha]; [lia|trivial|]. exists a. now right.
Qed.

Section Crosstab.

Variables index cols : list value.
Hypothesis same_length : length index = length cols.

Let row_labels := sort_by value_leb (unique index).
Let col_labels := sort_by value_leb (unique cols).

Lemma crosstab_rows :
  crosstab index cols =
  map (fun r => map (fun c => count_pair r c index cols) col_labels) row_labels.
Proof. reflexivity. Qed.

Lemma crosstab_length : length (crosstab index cols) = length (unique index).
Proof. rewrite crosstab_rows, length_map. apply sort_by_length. Qed.

Lemma crosstab_width :
  index <> [] -> length (hd [] (crosstab index cols)) = length (unique cols).
Proof.
  intros Hne. rewrite crosstab_rows.
  assert (Hrl : length row_labels <> 0).
  { unfold row_labels. rewrite sort_by_length. now destruct index. }
  destruct row_labels; [contradiction|]. simpl.
  rewrite length_map. apply sort_by_length.
Qed.

Lemma crosstab_nonneg :
  existsb (existsb (fun v => (v <? 0)%Z)) (crosstab index cols) = false.
Proof.
  destruct (existsb _ _) eqn:E; [|reflexivity].
  apply existsb_exists in E. destruct E as [row [Hrow E]].
  apply existsb_exists in E. destruct E as [v [Hv E]].
  rewrite crosstab_rows in Hrow. apply in_map_iff in Hrow.
  destruct Hrow as [r [<- _]]. apply in_map_iff in Hv.
  destruct Hv as [c [<- _]].
  pose proof (count_pair_nonneg r c index cols). lia.
Qed.

Lemma row_sums_pos (s : Z) :
  In s (row_sums (crosstab index cols)) -> (0 < s)%Z.
Proof.
  unfold row_sums. rewrite crosstab_rows, map_map.
  intros H. apply in_map_iff in H. destruct H as [r [<- Hr]].
  apply sort_by_In, unique_In in Hr.
  destruct (in_combine_left r index cols same_length Hr) as [v Hv].
  destruct (unique_repr v cols (in_combine_r _ _ _ _ Hv)) as [c [Hc E]].
  apply (Z.lt_le_trans _ (count_pair r c index cols)).
  - now apply (count_pair_pos r c r v); [|apply value_eqb_refl|].
  - apply Zsum_ge.
    + apply Forall_forall. intros z Hz. apply in_map_iff in Hz.
      destruct Hz as [c' [<- _]]. apply count_pair_nonneg.
    + apply (in_map (fun c => count_pair r c index cols)).
      now apply sort_by_In.
Qed.

Lemma col_sums_pos (s : Z) :
  index <> [] -> In s (col_sums (crosstab index cols)) -> (0 < s)%Z.
Proof.
  intros Hne. unfold col_sums. rewrite crosstab_width by trivial.
  rewrite <- (sort_by_length _ value_leb (unique cols)). fold col_labels.
  intros H. apply in_map_iff in H. destruct H as [j [<- Hj]].
  apply in_seq in Hj. simpl in Hj. destruct Hj as [_ Hj].
  rewrite crosstab_rows, map_map.
  set (c := nth j col_labels (VInt 0)).
  assert (Hc : In c col_labels) by (apply nth_In; exact Hj).
  assert (Hnth : forall r, nth j (map (fun c => count_pair r c index cols) col_labels) 0%Z
                           = count_pair r c index cols).
  { intros r.
    rewrite (nth_indep _ 0%Z (count_pair r (VInt 0) index cols))
      by (now rewrite length_map).
    apply (map_nth (fun c => count_pair r c index cols)). }
  rewrite (map_ext _ _ Hnth).
  apply sort_by_In, unique_In in Hc.
  destruct (in_combine_right c index cols same_length Hc) as [u Hu].
  destruct (unique_repr u index (in_combine_l _ _ _ _ Hu)) as [r [Hr E]].
  apply (Z.lt_le_trans _ (count_pair r c index cols)).
  - now apply (count_pair_pos r c u c); [| |apply value_eqb_refl].
  - apply Zsum_ge.
    + apply Forall_forall. intros z Hz. apply in_map_iff in Hz.
      destruct Hz as [r' [<- _]]. apply count_pair_nonneg.
    + apply (in_map (fun r => count_pair r c index cols)).
      now apply sort_by_In.
Qed.

Lemma total_pos :
  index <> [] -> (0 < Zsum (row_sums (crosstab index cols)))%Z.
Proof.
  intros Hne.
  assert (Hlen : length (row_sums (crosstab index cols)) <> 0).
  { unfold row_sums. rewrite length_map, crosstab_length. now destruct index. }
  destruct (row_sums (crosstab index cols)) as [|s l] eqn:E; [contradiction|].
  rewrite <- E.
  apply (Z.lt_le_trans _ s).
  - apply row_sums_pos. rewrite E. now left.
  - apply Zsum_ge.
    + apply Forall_forall. intros z Hz. apply row_sums_pos in Hz. lia.
    + rewrite E. now left.
Qed.

Lemma expected_freq_nonzero :
  index <> [] ->
  existsb (existsb (fun e => Qeq_bool e 0)) (expected_freq (crosstab index cols))
  = false.
Proof.
  intros Hne.
  destruct (existsb _ _) eqn:E; [|reflexivity].
  apply existsb_exists in E. destruct E as [row [Hrow E]].
  apply existsb_exists in E. destruct E as [e [He E]].
  unfold expected_freq in Hrow. apply in_map_iff in Hrow.
  destruct Hrow as [ri [<- Hri]]. apply in_map_iff in He.
  destruct He as [cj [<- Hcj]].
  apply row_sums_pos in Hri. apply col_sums_pos in Hcj; trivial.
  pose proof (total_pos Hne) as Ht.
  apply Qeq_bool_iff in E.
  assert (Hpos : (0 < inject_Z ri * inject_Z cj / inject_Z (Zsum (row_sums (crosstab index cols))))%Q).
  { apply Qlt_shift_div_l.
    - unfold Qlt. simpl. lia.
    - rewrite Qmult_0_l. rewrite <- inject_Z_mult.
      unfold Qlt. simpl. nia. }
  rewrite E in Hpos. discriminate.
Qed.

End Crosstab.

(** ** The chi-square test on a contingency table *)

Section Chi2.

Variable chi2_sf : Q -> Z -> Q.
Variables index cols : list value.
Hypothesis same_length : length index = length cols.
Hypothesis some_record : index <> [].

Lemma nonempty_unique : length (unique index) * length (unique cols) <> 0.
Proof.
  destruct index as [|x xs]; [contradiction|].
  destruct cols as [|y ys]; [discriminate|]. simpl. lia.
Qed.

(** With at least one record the test never raises. *)
Lemma chi2_contingency_total :
  exists stat_p, chi2_contingency chi2_sf (crosstab index cols) = Ok stat_p.
Proof.
  unfold chi2_contingency.
  rewrite crosstab_nonneg, expected_freq_nonzero by trivial.
  rewrite crosstab_length, crosstab_width by trivial.
  destruct (Nat.eqb_spec (length (unique index) * length (unique cols)) 0) as [E|_];
    [exfalso; exact (nonempty_unique E)|].
  destruct (_ =? 0)%Z; eauto.
Qed.

(** A column with a single distinct value leaves no degree of freedom: the
    statistic is set to 0 and the p-value to 1. *)
Lemma chi2_contingency_degenerate :
  length (unique index) <= 1 \/ length (unique cols) <= 1 ->
  chi2_contingency chi2_sf (crosstab index cols) = Ok (0%Q, 1%Q).
Proof.
  intros Hdeg. unfold chi2_contingency.
  rewrite crosstab_nonneg, expected_freq_nonzero by trivial.
  rewrite crosstab_length, crosstab_width by trivial.
  destruct (Nat.eqb_spec (length (unique index) * length (unique cols)) 0) as [E|_];
    [exfalso; exact (nonempty_unique E)|].
  replace (_ =? 0)%Z with true; [reflexivity|].
  symmetry. apply Z.eqb_eq.
  pose proof nonempty_unique as Hne.
  assert (E : length (unique index) = 1 \/ length (unique cols) = 1).
  { destruct (length (unique index)), (length (unique cols)); simpl in *; lia. }
  destruct E as [-> | ->]; rewrite ?Nat.mul_1_l, ?Nat.mul_1_r; lia.
Qed.

End Chi2.

(** ** The screener on a well-formed frame *)

Lemma rectangular_filter (n : nat) (p : column -> bool) (df : DataFrame) :
  rectangular n df -> rectangular n (filter p df).
Proof.
  unfold rectangular. rewrite !Forall_forall. intros H c Hc.
  apply filter_In in Hc. now apply H.
Qed.

Section ScreenerTotal.

Variable chi2_sf : Q -> Z -> Q.
Variable cat : DataFrame.
Variable n : nat.
Hypothesis unique_labels : NoDup (columns cat).
Hypothesis same_length : rectangular n cat.
Hypothesis some_record : 0 < n.

Lemma getitem_column (name : string) :
  In name (columns cat) ->
  exists c, In c cat /\ label c = name /\ getitem cat name = Ok (data c) /\
            length (values (data c)) = n.
Proof.
  intros H. apply in_columns in H. destruct H as [c [Hc <-]].
  exists c. repeat split; trivial.
  - now apply getitem_unique.
  - unfold rectangular in same_length. rewrite Forall_forall in same_length.
    now apply same_length.
Qed.

Lemma chi_square_record_total (a b : string) :
  In a (columns cat) -> In b (columns cat) ->
  exists r, chi_square_record chi2_sf cat [a; b] = Ok r /\
            first_col r = a /\ second_col r = b.
Proof.
  intros Ha Hb.
  destruct (getitem_column a Ha) as [ca [_ [_ [Ga La]]]].
  destruct (getitem_column b Hb) as [cb [_ [_ [Gb Lb]]]].
  unfold chi_square_record. simpl. rewrite Ga. simpl. rewrite Gb. simpl.
  destruct (chi2_contingency_total chi2_sf (values (data ca)) (values (data cb)))
    as [sp Hsp].
  - congruence.
  - intros E. rewrite E in La. simpl in La. lia.
  - rewrite Hsp. simpl. eauto.
Qed.

Lemma chi_square_records_total (pairs : list (list string)) :
  (forall p, In p pairs -> exists a b, p = [a; b] /\ precedes a b (columns cat)) ->
  exists rows,
    mapM (chi_square_record chi2_sf cat) pairs = Ok rows /\
    map (fun r => [first_col r; second_col r]) rows = pairs.
Proof.
  induction pairs as [|p pairs IH]; intros H.
  - now exists [].
  - destruct IH as [rows [Hrows Hkeys]]; [intros q Hq; apply H; now right|].
    destruct (H p (or_introl eq_refl)) as [a [b [-> Hab]]].
    apply precedes_In in Hab.
    destruct (chi_square_record_total a b) as [r [Hr [Ha Hb]]]; try tauto.
    exists (r :: rows). simpl in *. rewrite Hr. simpl. rewrite Hrows. simpl.
    split; trivial. now rewrite Ha, Hb, Hkeys.
Qed.

End ScreenerTotal.

(** On a frame with unique labels and at least one record, every pair of
    categorical columns yields a record, and the screener returns the
    records that pass the threshold, sorted. *)
Lemma screener_characterisation (chi2_sf : Q -> Z -> Q) (dataset : DataFrame)
    (thr : Q) (n : nat) :
  NoDup (columns dataset) -> rectangular n dataset -> 0 < n ->
  exists cat rows out,
    extract_categorical_cols dataset = Ok cat /\
    NoDup (columns cat) /\ rectangular n cat /\
    mapM (chi_square_record chi2_sf cat) (combinations (columns cat) 2) = Ok rows /\
    map (fun r => [first_col r; second_col r]) rows = combinations (columns cat) 2 /\
    calculate_pair_wise_chi_square_test chi2_sf dataset thr = Ok out /\
    Permutation out (filter (significant thr) rows) /\
    Sorted (fun a b => key_leb a b = true) out.
Proof.
  intros Hnd Hrect Hn.
  pose proof (extract_categorical_cols_filter dataset Hnd) as Hcat.
  set (cat := filter _ dataset) in Hcat.
  assert (Hnd' : NoDup (columns cat)) by now apply NoDup_columns_filter.
  assert (Hrect' : rectangular n cat) by now apply rectangular_filter.
  destruct (chi_square_records_total chi2_sf cat n Hnd' Hrect' Hn
              (combinations (columns cat) 2)) as [rows [Hrows Hkeys]].
  { intros p. apply combinations_2_In. }
  destruct (for_each_chi_square_step chi2_sf cat thr _ rows [] Hrows)
    as [out [Hout [Hperm Hsorted]]]; [constructor|].
  exists cat, rows, out. repeat split; trivial.
  unfold calculate_pair_wise_chi_square_test. now rewrite Hcat.
Qed.

(** ** Order of the sort key *)

Lemma string_leb_iff (x y : string) :
  String.leb x y = true <-> x = y \/ OrderedTypeEx.String_as_OT.lt x y.
Proof.
  unfold String.leb.
  destruct (String.compare x y) eqn:E; split; trivial; intros H.
  - left. now apply String.compare_eq_iff.
  - right. now apply OrderedTypeEx.String_as_OT.cmp_lt.
  - discriminate.
  - destruct H as [->|H].
    + assert (String.compare y y = Eq) by now apply OrderedTypeEx.String_as_OT.cmp_eq.
      congruence.
    + apply OrderedTypeEx.String_as_OT.cmp_lt in H. unfold OrderedTypeEx.String_as_OT.cmp in H. congruence.
Qed.

(** [key_leb] is the lexicographic order on (first_col, second_col). *)
Lemma key_leb_lex (a b : AssociationRecord) :
  key_leb a b = true <->
  OrderedTypeEx.String_as_OT.lt (first_col a) (first_col b) \/
  (first_col a = first_col b /\
   (second_col a = second_col b \/ OrderedTypeEx.String_as_OT.lt (second_col a) (second_col b))).
Proof.
  unfold key_leb.
  destruct (String.compare (first_col a) (first_col b)) eqn:E.
  - apply String.compare_eq_iff in E. rewrite string_leb_iff. split.
    + intros H. right. now split.
    + intros [H|[_ H]]; trivial.
      rewrite E in H. exfalso. now apply (OrderedTypeEx.String_as_OT.lt_not_eq _ _ H).
  - apply OrderedTypeEx.String_as_OT.cmp_lt in E. tauto.
  - split; [discriminate|]. intros [H|[H _]].
    + apply OrderedTypeEx.String_as_OT.cmp_lt in H. unfold OrderedTypeEx.String_as_OT.cmp in H. congruence.
    + assert (String.compare (first_col a) (first_col b) = Eq)
        by now apply OrderedTypeEx.String_as_OT.cmp_eq.
      congruence.
Qed.

Lemma key_leb_trans (a b c : AssociationRecord) :
  key_leb a b = true -> key_leb b c = true -> key_leb a c = true.
Proof.
  rewrite !key_leb_lex.
  intros [H1|[E1 H1]] [H2|[E2 H2]].
  - left. eapply OrderedTypeEx.String_as_OT.lt_trans; eauto.
  - left. now rewrite <- E2.
  - left. now rewrite E1.
  - right. split; [congruence|].
    destruct H1 as [H1|H1], H2 as [H2|H2].
    + left. congruence.
    + right. now rewrite H1.
    + right. now rewrite <- H2.
    + right. eapply OrderedTypeEx.String_as_OT.lt_trans; eauto.
Qed.

Lemma sorted_strongly (l : list AssociationRecord) :
  Sorted (fun a b => key_leb a b = true) l ->
  StronglySorted (fun a b => key_leb a b = true) l.
Proof.
  apply Sorted_StronglySorted. intros a b c. apply key_leb_trans.
Qed.

Lemma mapM_In {A B : Type} (f : A -> result B) (l : list A) (ys : list B) :
  mapM f l = Ok ys ->
  forall y, In y ys <-> exists x, In x l /\ f x = Ok y.
Proof.
  revert ys. induction l as [|x l IH]; simpl; intros ys H y.
  - injection H as <-. simpl. firstorder.
  - destruct (f x) as [y0|] eqn:E; simpl in H; [|discriminate].
    destruct (mapM f l) as [ys0|]; simpl in H; [|discriminate].
    injection H as <-. simpl. rewrite (IH ys0 eq_refl y). split.
    + intros [<-|[x' [Hx' Hf]]]; eauto.
    + intros [x' [[<-|Hx'] Hf]]; [left; congruence|right; eauto].
Qed.

(** ** Association screener *)



(** C7: on a frame with unique labels, whenever the screener returns (and
    it does unless the frame has no record), [rows] being the records of all
    pairs in generation order, the result is a rearrangement of the rows
    whose p-value is at most the threshold, and it is sorted by
    (first_col, second_col). *)
Theorem chi_square_test_output (chi2_sf : Q -> Z -> Q) (dataset : DataFrame)
    (p_value_threshold : Q) (n : nat) :
  NoDup (columns dataset) -> rectangular n dataset ->
  exists cat,
    extract_categorical_cols dataset = Ok cat /\
    match calculate_pair_wise_chi_square_test chi2_sf dataset p_value_threshold with
    | Ok out =>
        exists rows,
          mapM (chi_square_record chi2_sf cat) (combinations (columns cat) 2)
            = Ok rows /\
          Permutation out
            (filter (fun r => Qle_bool (p_value r) p_value_threshold) rows) /\
          (forall r, In r out <-> In r rows /\ (p_value r <= p_value_threshold)%Q) /\
          StronglySorted (fun a b => key_leb a b = true) out
    | Raise _ => n = 0
    end.
Proof.
  intros Hnd Hrect.
  pose proof (extract_categorical_cols_filter dataset Hnd) as Hcat.
  set (cat := filter _ dataset) in Hcat.
  exists cat. split; [exact Hcat|].
  unfold calculate_pair_wise_chi_square_test. rewrite Hcat. simpl.
  destruct (for_each _ _ _) as [out|e] eqn:Hloop.
  - destruct (for_each_chi_square_step_returns chi2_sf cat p_value_threshold
                _ _ _ Hloop) as [rows Hrows].
    destruct (for_each_chi_square_step chi2_sf cat p_value_threshold _ rows []
                Hrows (Sorted_nil _)) as [out' [Hout' [Hperm Hsorted]]].
    assert (out' = out) by congruence. subst out'. simpl in Hperm.
    exists rows. repeat split; trivial.
    + apply (Permutation_in _ Hperm) in H. apply filter_In in H. tauto.
    + apply (Permutation_in _ Hperm) in H. apply filter_In in H.
      apply Qle_bool_iff. tauto.
    + intros [Hr Hp]. apply (Permutation_in _ (Permutation_sym Hperm)).
      apply filter_In. split; trivial. now apply Qle_bool_iff.
    + now apply sorted_strongly.
  - destruct n as [|n']; [reflexivity|]. exfalso.
    destruct (chi_square_records_total chi2_sf cat (S n'))
      with (pairs := combinations (columns cat) 2) as [rows [Hrows _]].
    + now apply NoDup_columns_filter.
    + now apply rectangular_filter.
    + lia.
    + intros p. apply combinations_2_In.
    + destruct (for_each_chi_square_step chi2_sf cat p_value_threshold _ rows []
                  Hrows (Sorted_nil _)) as [out [Hout _]].
      congruence.
Qed.

Lemma chi_square_test_output_witness :
  exists cat,
    extract_categorical_cols test_data = Ok cat /\
    match calculate_pair_wise_chi_square_test (fun _ _ => 1 # 2)%Q test_data
            (1 # 20)%Q with
    | Ok out =>
        exists rows,
          mapM (chi_square_record (fun _ _ => 1 # 2)%Q cat)
               (combinations (columns cat) 2) = Ok rows /\
          Permutation out (filter (fun r => Qle_bool (p_value r) (1 # 20)%Q) rows) /\
          (forall r, In r out <-> In r rows /\ (p_value r <= 1 # 20)%Q) /\
          StronglySorted (fun a b => key_leb a b = true) out
    | Raise _ => 3 = 0
    end.
Proof.
  apply (chi_square_test_output (fun _ _ => 1 # 2)%Q test_data (1 # 20)%Q 3).
  - exact test_data_labels.
  - repeat constructor.
Defined.

(** Counterexample to C2 as stated: with threshold 1 the pair of a constant
    column and another column is neither refused nor skipped; its record
    carries statistic 0 and p-value 1, whatever the survival function. *)
Lemma chi_square_degenerate_counterexample :
  nunique (IntSeries [0; 0]%Z) = 1 /\
  forall chi2_sf,
    calculate_pair_wise_chi_square_test chi2_sf constant_category_data 1%Q =
    Ok [Row "A" "B" 0%Q 1%Q].
Proof. split; [reflexivity|]. intros chi2_sf. reflexivity. Qed.

(** C2 (amended): on a frame with unique labels and at least one record the
    screener returns, and a pair [a], [b] of categorical columns one of which
    has fewer than 2 distinct values is given the record (a, b, 0, 1): that
    record is in the result exactly when the threshold is at least 1, and
    the result holds no other record for the pair. *)
Theorem chi_square_degenerate_pair (chi2_sf : Q -> Z -> Q) (dataset : DataFrame)
    (p_value_threshold : Q) (n : nat) :
  NoDup (columns dataset) -> rectangular n dataset -> 0 < n ->
  exists cat out,
    extract_categorical_cols dataset = Ok cat /\
    calculate_pair_wise_chi_square_test chi2_sf dataset p_value_threshold = Ok out /\
    forall ca cb,
      In ca cat -> In cb cat -> precedes (label ca) (label cb) (columns cat) ->
      nunique (data ca) <= 1 \/ nunique (data cb) <= 1 ->
      chi_square_record chi2_sf cat [label ca; label cb]
        = Ok (Row (label ca) (label cb) 0%Q 1%Q) /\
      (In (Row (label ca) (label cb) 0%Q 1%Q) out <-> (1 <= p_value_threshold)%Q) /\
      (forall r, In r out -> first_col r = label ca -> second_col r = label cb ->
                 r = Row (label ca) (label cb) 0%Q 1%Q).
Proof.
  intros Hnd Hrect Hn.
  destruct (screener_characterisation chi2_sf dataset p_value_threshold n Hnd Hrect Hn)
    as [cat [rows [out [Hcat [Hnd' [Hrect' [Hrows [Hkeys [Hout [Hperm _]]]]]]]]]].
  exists cat, out. split; [exact Hcat|]. split; [exact Hout|].
  intros ca cb Hca Hcb Hprec Hdeg.
  assert (Hrec : chi_square_record chi2_sf cat [label ca; label cb]
                 = Ok (Row (label ca) (label cb) 0%Q 1%Q)).
  { unfold chi_square_record. simpl.
    rewrite (getitem_unique cat ca Hnd' Hca). simpl.
    rewrite (getitem_unique cat cb Hnd' Hcb). simpl.
    unfold rectangular in Hrect'. rewrite Forall_forall in Hrect'.
    pose proof (Hrect' ca Hca) as La. pose proof (Hrect' cb Hcb) as Lb.
    unfold series_length in La, Lb.
    rewrite chi2_contingency_degenerate; trivial.
    - congruence.
    - intros E. rewrite E in La. simpl in La. lia. }
  assert (Hin : In (Row (label ca) (label cb) 0%Q 1%Q) rows).
  { apply (mapM_In _ _ _ Hrows). exists [label ca; label cb]. split; trivial.
    apply combinations_2_In. eauto. }
  split; [exact Hrec|]. split; [split|].
  - intros H. apply (Permutation_in _ Hperm) in H. apply filter_In in H.
    apply Qle_bool_iff. tauto.
  - intros H. apply (Permutation_in _ (Permutation_sym Hperm)).
    apply filter_In. split; trivial. now apply Qle_bool_iff.
  - intros r Hr Hf Hs. apply (Permutation_in _ Hperm) in Hr.
    apply filter_In in Hr. destruct Hr as [Hr _].
    apply (mapM_In _ _ _ Hrows) in Hr. destruct Hr as [p [Hp Hfp]].
    apply combinations_2_In in Hp. destruct Hp as [a [b [-> Hab]]].
    apply precedes_In in Hab.
    destruct (chi_square_record_total chi2_sf cat n Hnd' Hrect' Hn a b)
      as [r' [Hr' [Ha Hb]]]; try tauto.
    assert (r' = r) by congruence. subst r'.
    rewrite Hf in Ha. rewrite Hs in Hb. subst a b. congruence.
Qed.

Lemma chi_square_degenerate_pair_witness :
  exists cat out,
    extract_categorical_cols constant_category_data = Ok cat /\
    calculate_pair_wise_chi_square_test (fun _ _ => 1 # 2)%Q
      constant_category_data (1 # 20)%Q = Ok out /\
    forall ca cb,
      In ca cat -> In cb cat -> precedes (label ca) (label cb) (columns cat) ->
      nunique (data ca) <= 1 \/ nunique (data cb) <= 1 ->
      chi_square_record (fun _ _ => 1 # 2)%Q cat [label ca; label cb]
        = Ok (Row (label ca) (label cb) 0%Q 1%Q) /\
      (In (Row (label ca) (label cb) 0%Q 1%Q) out <-> (1 <= 1 # 20)%Q) /\
      (forall r, In r out -> first_col r = label ca -> second_col r = label cb ->
                 r = Row (label ca) (label cb) 0%Q 1%Q).
Proof.
  apply (chi_square_degenerate_pair (fun _ _ => 1 # 2)%Q
           constant_category_data (1 # 20)%Q 2).
  - distinct_labels.
  - repeat constructor.
  - lia.
Defined.

(** ** Sums of squares *)

Lemma Qsum_nonneg (l : list Q) :
  Forall (fun q => 0 <= q)%Q l -> (0 <= Qsum l)%Q.
Proof.
  induction 1 as [|q l Hq Hl IH]; simpl; [apply Qle_refl|].
  rewrite <- (Qplus_0_l 0). now apply Qplus_le_compat.
Qed.





(** ** Standardizer *)


Lemma to_float_length (s : series) (x : list Q) :
  to_float s = Ok x -> length x = series_length s.
Proof.
  unfold series_length.
  destruct s; simpl; intros H; try discriminate; injection H as <-;
    now rewrite ?length_map.
Qed.

Lemma to_numeric_total (n : nat) (df : DataFrame) :
  Forall (fun c => dtype_of (data c) <> object) df -> rectangular n df ->
  exists X, to_numeric df = Ok X /\ length X = length df /\
            Forall (fun x => length x = n) X.
Proof.
  induction df as [|c df IH]; intros Hty Hrect.
  - exists []. simpl. auto.
  - inversion Hty as [|c' df' Hc Hty']; subst.
    inversion Hrect as [|c' df' Hn Hrect']; subst.
    destruct (IH Hty' Hrect') as [X [HX [Hlen Hall]]].
    assert (Hx : exists x, to_float (data c) = Ok x).
    { destruct (data c); simpl in *; eauto. congruence. }
    destruct Hx as [x Hx]. exists (x :: X). simpl. rewrite Hx, HX. simpl.
    repeat split; [now rewrite Hlen|].
    constructor; trivial. now apply to_float_length.
Qed.


Lemma select_dtypes_float_numeric (dataset : DataFrame) :
  Forall (fun c => dtype_of (data c) <> object) (select_dtypes float64 dataset).
Proof.
  apply Forall_forall. intros c Hc. apply filter_In in Hc.
  destruct Hc as [_ Hc]. destruct (dtype_of (data c)); discriminate.
Qed.





(** ** Sums of products of deviations *)

Section CauchySchwarz.

Variable l : list (Q * Q).

Let A : Q := Qsum (map (fun p => fst p * fst p)%Q l).
Let B : Q := Qsum (map (fun p => snd p * snd p)%Q l).



End CauchySchwarz.



Section Deviations.

Variables x y : list Q.
Hypothesis same_length : length x = length y.






End Deviations.





(** ** Pearson's coefficient *)

Section Pearson.

Variables x y : list Q.
Hypothesis same_length : length x = length y.
Hypothesis var_x : ~ (variance x == 0)%Q.
Hypothesis var_y : ~ (variance y == 0)%Q.





End Pearson.

(** ** Rounding *)






(** ** Correlation engine *)


Lemma nth_map_lt {A B : Type} (g : A -> B) (l : list A) (i : nat) (d : A) (d' : B) :
  i < length l -> nth i (map g l) d' = g (nth i l d).
Proof.
  intros H. rewrite (nth_indep _ d' (g d)) by now rewrite length_map.
  apply map_nth.
Qed.

Lemma cell_round_corr (names : list string) (X : list (list Q)) (i j : nat) :
  i < length X -> j < length X ->
  cell (round 2 {| axis := names;
                   cells := map (fun x => map (fun y => pearson x y) X) X |}) i j =
  option_map (round_to 2) (pearson (nth i X []) (nth j X [])).
Proof.
  intros Hi Hj. unfold cell, round. simpl.
  rewrite (nth_map_lt _ _ i [] []) by now rewrite length_map.
  rewrite (nth_map_lt _ _ i [] []) by trivial.
  rewrite (nth_map_lt _ _ j None None) by now rewrite length_map.
  now rewrite (nth_map_lt _ _ j [] None) by trivial.
Qed.



(** * Further properties *)

(** ** Threshold and shape of the screener's result *)

Lemma filter_length_le {A : Type} (p q : A -> bool) (l : list A) :
  (forall x, p x = true -> q x = true) ->
  length (filter p l) <= length (filter q l).
Proof.
  intros H. induction l as [|x l IH]; simpl; [lia|].
  destruct (p x) eqn:E.
  - rewrite (H x E). simpl. lia.
  - destruct (q x); simpl; lia.
Qed.

Lemma significant_mono (t1 t2 : Q) (r : AssociationRecord) :
  (t1 <= t2)%Q -> significant t1 r = true -> significant t2 r = true.
Proof.
  unfold significant. rewrite !Qle_bool_iff. intros H1 H2.
  eapply Qle_trans; eauto.
Qed.

(** Lowering the threshold never adds a record: the result for the lower
    threshold is contained in the result for the higher one. *)
Theorem chi_square_threshold_monotone (chi2_sf : Q -> Z -> Q) (dataset : DataFrame)
    (t1 t2 : Q) (n : nat) :
  NoDup (columns dataset) -> rectangular n dataset -> 0 < n ->
  (t1 <= t2)%Q ->
  exists out1 out2,
    calculate_pair_wise_chi_square_test chi2_sf dataset t1 = Ok out1 /\
    calculate_pair_wise_chi_square_test chi2_sf dataset t2 = Ok out2 /\
    incl out1 out2 /\ length out1 <= length out2.
Proof.
  intros Hnd Hrect Hn Hle.
  destruct (screener_characterisation chi2_sf dataset t1 n Hnd Hrect Hn)
    as [cat [rows [out1 [Hcat [_ [_ [Hrows [_ [Hout1 [Hperm1 _]]]]]]]]]].
  destruct (screener_characterisation chi2_sf dataset t2 n Hnd Hrect Hn)
    as [cat' [rows' [out2 [Hcat' [_ [_ [Hrows' [_ [Hout2 [Hperm2 _]]]]]]]]]].
  assert (cat' = cat) by congruence. subst cat'.
  assert (rows' = rows) by congruence. subst rows'.
  exists out1, out2. repeat split; trivial.
  - intros r Hr. apply (Permutation_in _ Hperm1) in Hr.
    apply (Permutation_in _ (Permutation_sym Hperm2)).
    apply filter_In in Hr. apply filter_In. split; [tauto|].
    apply (significant_mono t1 t2); tauto.
  - rewrite (Permutation_length Hperm1), (Permutation_length Hperm2).
    apply filter_length_le. intros r. now apply significant_mono.
Qed.

Lemma chi_square_threshold_monotone_witness :
  exists out1 out2,
    calculate_pair_wise_chi_square_test (fun _ _ => 1 # 2)%Q test_data (1 # 20)%Q
      = Ok out1 /\
    calculate_pair_wise_chi_square_test (fun _ _ => 1 # 2)%Q test_data (3 # 4)%Q
      = Ok out2 /\
    incl out1 out2 /\ length out1 <= length out2.
Proof.
  apply (chi_square_threshold_monotone (fun _ _ => 1 # 2)%Q test_data
           (1 # 20)%Q (3 # 4)%Q 3).
  - exact test_data_labels.
  - repeat constructor.
  - lia.
  - discriminate.
Defined.

Lemma retained_keys_distinct (keep : AssociationRecord -> bool)
    (rows : list AssociationRecord) :
  let key := fun r => [first_col r; second_col r] in
  NoDup (map key rows) -> NoDup (map key (filter keep rows)).
Proof.
  intros key. induction rows as [|r rows IH]; simpl; intros Hkeys.
  - constructor.
  - inversion Hkeys as [|k ks Hfresh Hrest]; subst.
    destruct (keep r); simpl; [|now apply IH].
    constructor; [|now apply IH].
    intros Hin. apply Hfresh. apply in_map_iff in Hin.
    destruct Hin as [r' [E Hr']]. apply filter_In in Hr'.
    rewrite <- E. apply (in_map key). tauto.
Qed.

Lemma precedes_map_filter {A B : Type} (a b : B) (f : A -> B)
    (p : A -> bool) (l : list A) :
  precedes a b (map f (filter p l)) -> precedes a b (map f l).
Proof.
  induction l as [|x l IH]; simpl; [trivial|].
  intros H. apply precedes_cons.
  destruct (p x); simpl in H.
  - apply precedes_cons in H. destruct H as [[-> Hb]|H]; [left|right; auto].
    split; trivial. apply in_map_iff in Hb. destruct Hb as [y [<- Hy]].
    apply in_map. apply filter_In in Hy. tauto.
  - right. auto.
Qed.

Lemma categorical_label (dataset : DataFrame) (name : string) :
  In name (columns (filter (fun c => dtype_eqb (dtype_of (data c)) int64
                          && negb (mem_string (label c) ["Age"; "PatientID"]))
                      dataset)) ->
  name <> "Age" /\ name <> "PatientID" /\
  exists c, In c dataset /\ label c = name /\ dtype_of (data c) = int64.
Proof.
  intros H. apply in_columns in H. destruct H as [c [Hc <-]].
  apply filter_In in Hc. destruct Hc as [Hc Hp].
  apply andb_true_iff in Hp. destruct Hp as [Hint Hexcl].
  apply negb_true_iff in Hexcl.
  repeat split.
  - intros E. rewrite E in Hexcl. discriminate.
  - intros E. rewrite E in Hexcl. discriminate.
  - exists c. repeat split; trivial.
    destruct (dtype_of (data c)); trivial; discriminate.
Qed.

(** Every record of the result names two distinct integer-typed columns of
    the frame, neither of them "Age" or "PatientID", the first standing
    before the second in the frame; no two records carry the same pair. *)
Theorem chi_square_records_name_categorical_pairs (chi2_sf : Q -> Z -> Q)
    (dataset : DataFrame) (thr : Q) (n : nat) :
  NoDup (columns dataset) -> rectangular n dataset -> 0 < n ->
  exists out,
    calculate_pair_wise_chi_square_test chi2_sf dataset thr = Ok out /\
    NoDup (map (fun r => [first_col r; second_col r]) out) /\
    forall r, In r out ->
      first_col r <> second_col r /\
      precedes (first_col r) (second_col r) (columns dataset) /\
      (forall name, name = first_col r \/ name = second_col r ->
         name <> "Age" /\ name <> "PatientID" /\
         exists c, In c dataset /\ label c = name /\ dtype_of (data c) = int64).
Proof.
  intros Hnd Hrect Hn.
  destruct (screener_characterisation chi2_sf dataset thr n Hnd Hrect Hn)
    as [cat [rows [out [Hcat [Hnd' [_ [Hrows [Hkeys [Hout [Hperm _]]]]]]]]]].
  rewrite (extract_categorical_cols_filter dataset Hnd) in Hcat.
  injection Hcat as Hcat. subst cat.
  exists out. split; [exact Hout|]. split.
  - apply (Permutation_NoDup
             (Permutation_map _ (Permutation_sym Hperm))).
    apply retained_keys_distinct. cbv zeta. rewrite Hkeys. now apply combinations_2_NoDup.
  - intros r Hr. apply (Permutation_in _ Hperm) in Hr.
    apply filter_In in Hr. destruct Hr as [Hr _].
    pose proof (in_map (fun r => [first_col r; second_col r]) _ _ Hr) as Hp.
    cbv beta in Hp. rewrite Hkeys in Hp.
    apply combinations_2_In in Hp. destruct Hp as [a [b [E Hprec]]].
    injection E as <- <-.
    destruct (precedes_asym _ _ _ Hnd' Hprec) as [Hneq _].
    pose proof (precedes_In _ _ _ Hprec) as [Ha Hb].
    split; [exact Hneq|]. split.
    + exact (precedes_map_filter _ _ label _ dataset Hprec).
    + intros name [->| ->]; apply categorical_label; assumption.
Qed.

Lemma chi_square_records_name_categorical_pairs_witness :
  exists out,
    calculate_pair_wise_chi_square_test (fun _ _ => 1 # 2)%Q test_data (3 # 4)%Q
      = Ok out /\
    NoDup (map (fun r => [first_col r; second_col r]) out) /\
    forall r, In r out ->
      first_col r <> second_col r /\
      precedes (first_col r) (second_col r) (columns test_data) /\
      (forall name, name = first_col r \/ name = second_col r ->
         name <> "Age" /\ name <> "PatientID" /\
         exists c, In c test_data /\ label c = name /\ dtype_of (data c) = int64).
Proof.
  apply (chi_square_records_name_categorical_pairs (fun _ _ => 1 # 2)%Q
           test_data (3 # 4)%Q 3).
  - exact test_data_labels.
  - repeat constructor.
  - lia.
Defined.

(** With fewer than two categorical columns there is no pair to test: the
    loop body never runs and the result is the empty frame, whatever the
    threshold and even on a frame without records. *)
Theorem chi_square_no_pair (chi2_sf : Q -> Z -> Q) (dataset cat : DataFrame)
    (thr : Q) :
  extract_categorical_cols dataset = Ok cat -> length cat < 2 ->
  calculate_pair_wise_chi_square_test chi2_sf dataset thr = Ok [].
Proof.
  intros Hcat Hlen. unfold calculate_pair_wise_chi_square_test.
  rewrite Hcat. simpl.
  destruct cat as [|c [|d rest]]; simpl in *; try reflexivity. lia.
Qed.

Lemma chi_square_no_pair_witness :
  calculate_pair_wise_chi_square_test (fun _ _ => 1 # 2)%Q float_age_data (3 # 4)%Q
  = Ok [].
Proof.
  apply (chi_square_no_pair (fun _ _ => 1 # 2)%Q float_age_data
           [Column "Category1" (IntSeries [0; 1; 0]%Z)] (3 # 4)%Q).
  - reflexivity.
  - simpl. lia.
Defined.

Lemma values_nil (s : series) : series_length s = 0 -> values s = [].
Proof.
  unfold series_length. intros H. now destruct (values s).
Qed.

(** On a frame without records that has at least two categorical columns the
    first contingency table is empty and the test refuses it: the screener
    raises [ValueError]. *)
Theorem chi_square_no_record (chi2_sf : Q -> Z -> Q) (dataset cat : DataFrame)
    (thr : Q) :
  NoDup (columns dataset) -> rectangular 0 dataset ->
  extract_categorical_cols dataset = Ok cat -> 2 <= length cat ->
  calculate_pair_wise_chi_square_test chi2_sf dataset thr = Raise ValueError.
Proof.
  intros Hnd Hrect Hcat Hlen.
  pose proof Hcat as Hcat'.
  rewrite (extract_categorical_cols_filter dataset Hnd) in Hcat'.
  injection Hcat' as Hcat'.
  assert (Hnd' : NoDup (columns cat)).
  { rewrite <- Hcat'. now apply NoDup_columns_filter. }
  assert (Hrect' : rectangular 0 cat).
  { rewrite <- Hcat'. now apply rectangular_filter. }
  unfold calculate_pair_wise_chi_square_test. rewrite Hcat. simpl.
  destruct cat as [|ca [|cb rest]]; simpl in Hlen; try lia.
  change (columns (ca :: cb :: rest))
    with (label ca :: label cb :: columns rest).
  rewrite combinations_2_cons. simpl map. simpl app.
  simpl for_each. rewrite chi_square_step_record.
  unfold chi_square_record. simpl tuple_get. simpl bind.
  rewrite (getitem_unique _ ca Hnd') by now left. simpl bind.
  rewrite (getitem_unique _ cb Hnd') by (right; now left). simpl bind.
  unfold rectangular in Hrect'. rewrite Forall_forall in Hrect'.
  rewrite (values_nil (data ca)) by (apply Hrect'; now left).
  rewrite (values_nil (data cb)) by (apply Hrect'; right; now left).
  reflexivity.
Qed.

Lemma chi_square_no_record_witness :
  calculate_pair_wise_chi_square_test (fun _ _ => 1 # 2)%Q empty_data (3 # 4)%Q
  = Raise ValueError.
Proof.
  apply (chi_square_no_record (fun _ _ => 1 # 2)%Q empty_data
           [Column "Category1" (IntSeries []); Column "Category2" (IntSeries [])]
           (3 # 4)%Q).
  - distinct_labels.
  - repeat constructor.
  - reflexivity.
  - simpl. lia.
Defined.

(** ** One sort is enough *)

Lemma sorted_permutation_unique {A : Type} (le : A -> A -> Prop) (l1 : list A) :
  forall l2,
    StronglySorted le l1 -> StronglySorted le l2 -> Permutation l1 l2 ->
    (forall a b, In a l1 -> In b l1 -> le a b -> le b a -> a = b) ->
    l1 = l2.
Proof.
  induction l1 as [|a l1 IH]; intros l2 H1 H2 Hperm Hanti.
  - now apply Permutation_nil in Hperm.
  - destruct l2 as [|b l2];
      [apply Permutation_sym, Permutation_nil in Hperm; discriminate|].
    inversion H1 as [|a' l1' Hs1 Ha]; subst.
    inversion H2 as [|b' l2' Hs2 Hb]; subst.
    rewrite Forall_forall in Ha, Hb.
    assert (E : a = b).
    { assert (Hab : In a (b :: l2)) by (apply (Permutation_in _ Hperm); now left).
      assert (Hba : In b (a :: l1))
        by (apply (Permutation_in _ (Permutation_sym Hperm)); now left).
      destruct Hab as [->|Hab]; [reflexivity|].
      destruct Hba as [->|Hba]; [reflexivity|].
      apply Hanti; [now left|now right|now apply Ha|now apply Hb]. }
    subst b. f_equal. apply IH; trivial.
    + now apply Permutation_cons_inv in Hperm.
    + intros x y Hx Hy. apply Hanti; now right.
Qed.

Lemma key_leb_antisym (a b : AssociationRecord) :
  key_leb a b = true -> key_leb b a = true ->
  [first_col a; second_col a] = [first_col b; second_col b].
Proof.
  rewrite !key_leb_lex.
  assert (Hirr : forall s t, OrderedTypeEx.String_as_OT.lt s t ->
                             OrderedTypeEx.String_as_OT.lt t s -> False).
  { intros s t H1 H2.
    apply (OrderedTypeEx.String_as_OT.lt_not_eq s s); [|reflexivity].
    eapply OrderedTypeEx.String_as_OT.lt_trans; eauto. }
  assert (Hne : forall s, OrderedTypeEx.String_as_OT.lt s s -> False).
  { intros s H. now apply (OrderedTypeEx.String_as_OT.lt_not_eq s s). }
  intros [H1|[E1 H1]] [H2|[E2 H2]].
  - exfalso. eauto.
  - exfalso. rewrite E2 in H1. eauto.
  - exfalso. rewrite E1 in H2. eauto.
  - rewrite E1. destruct H1 as [->|H1]; [reflexivity|].
    destruct H2 as [->|H2]; [reflexivity|]. exfalso. eauto.
Qed.

Lemma same_key_same_record (rows : list AssociationRecord)
    (r1 r2 : AssociationRecord) :
  let key := fun r => [first_col r; second_col r] in
  NoDup (map key rows) -> In r1 rows -> In r2 rows -> key r1 = key r2 -> r1 = r2.
Proof.
  intros key. induction rows as [|r rows IH]; simpl; intros Hkeys H1 H2 E;
    [contradiction|].
  inversion Hkeys as [|k ks Hfresh Hrest]; subst.
  destruct H1 as [->|H1], H2 as [->|H2]; trivial.
  - exfalso. apply Hfresh. rewrite E. now apply (in_map key).
  - exfalso. apply Hfresh. rewrite <- E. now apply (in_map key).
  - now apply IH.
Qed.

(** The sorts inside the loop are redundant: the result is what a single
    sort of the retained records, taken in generation order, gives. *)
Theorem chi_square_single_sort (chi2_sf : Q -> Z -> Q) (dataset : DataFrame)
    (thr : Q) (n : nat) :
  NoDup (columns dataset) -> rectangular n dataset -> 0 < n ->
  exists cat rows,
    extract_categorical_cols dataset = Ok cat /\
    mapM (chi_square_record chi2_sf cat) (combinations (columns cat) 2) = Ok rows /\
    calculate_pair_wise_chi_square_test chi2_sf dataset thr =
    Ok (sort_values (filter (fun r => Qle_bool (p_value r) thr) rows)).
Proof.
  intros Hnd Hrect Hn.
  destruct (screener_characterisation chi2_sf dataset thr n Hnd Hrect Hn)
    as [cat [rows [out [Hcat [Hnd' [_ [Hrows [Hkeys [Hout [Hperm Hsorted]]]]]]]]]].
  exists cat, rows. repeat split; trivial.
  rewrite Hout. f_equal.
  apply (sorted_permutation_unique (fun a b => key_leb a b = true)).
  - now apply sorted_strongly.
  - apply sorted_strongly, sort_values_sorted.
  - rewrite Hperm. symmetry. apply sort_values_perm.
  - intros a b Ha Hb Hab Hba.
    apply (same_key_same_record out); trivial.
    + apply (Permutation_NoDup (Permutation_map _ (Permutation_sym Hperm))).
      apply retained_keys_distinct. cbv zeta. rewrite Hkeys. now apply combinations_2_NoDup.
    + now apply key_leb_antisym.
Qed.

Lemma chi_square_single_sort_witness :
  exists cat rows,
    extract_categorical_cols test_data = Ok cat /\
    mapM (chi_square_record (fun _ _ => 1 # 2)%Q cat)
         (combinations (columns cat) 2) = Ok rows /\
    calculate_pair_wise_chi_square_test (fun _ _ => 1 # 2)%Q test_data (3 # 4)%Q =
    Ok (sort_values (filter (fun r => Qle_bool (p_value r) (3 # 4)%Q) rows)).
Proof.
  apply (chi_square_single_sort (fun _ _ => 1 # 2)%Q test_data (3 # 4)%Q 3).
  - exact test_data_labels.
  - repeat constructor.
  - lia.
Defined.

(** ** Statistic and degrees of freedom *)

Lemma Zsum_nonneg (l : list Z) :
  Forall (fun z => 0 <= z)%Z l -> (0 <= Zsum l)%Z.
Proof. induction 1; simpl; lia. Qed.

Lemma no_negative_entry (observed : list (list Z)) :
  existsb (existsb (fun v => (v <? 0)%Z)) observed = false ->
  Forall (Forall (fun z => 0 <= z)%Z) observed.
Proof.
  intros H. apply Forall_forall. intros row Hrow.
  apply Forall_forall. intros z Hz.
  destruct (Z.ltb_spec z 0) as [Hneg|]; [|trivial].
  exfalso. apply (eq_true_false_abs _ eq_refl). rewrite <- H.
  symmetry. apply existsb_exists. exists row. split; trivial.
  apply existsb_exists. exists z. split; trivial. now apply Z.ltb_lt.
Qed.

Lemma inject_Z_nonneg (z : Z) : (0 <= z)%Z -> (0 <= inject_Z z)%Q.
Proof. intros H. unfold Qle. simpl. lia. Qed.

Lemma expected_freq_nonneg (observed : list (list Z)) :
  Forall (Forall (fun z => 0 <= z)%Z) observed ->
  Forall (fun e => 0 <= e)%Q (concat (expected_freq observed)).
Proof.
  intros Hobs. rewrite Forall_forall in Hobs.
  apply Forall_forall. intros e He.
  apply in_concat in He. destruct He as [row [Hrow He]].
  unfold expected_freq in Hrow. apply in_map_iff in Hrow.
  destruct Hrow as [ri [<- Hri]]. apply in_map_iff in He.
  destruct He as [cj [<- Hcj]].
  assert (Hrows : Forall (fun z => 0 <= z)%Z (row_sums observed)).
  { unfold row_sums. rewrite Forall_map. apply Forall_forall.
    intros row Hrow. apply Zsum_nonneg. now apply Hobs. }
  assert (Hri' : (0 <= ri)%Z).
  { rewrite Forall_forall in Hrows. now apply Hrows. }
  assert (Hcj' : (0 <= cj)%Z).
  { unfold col_sums in Hcj. apply in_map_iff in Hcj.
    destruct Hcj as [j [<- _]]. apply Zsum_nonneg.
    rewrite Forall_map. apply Forall_forall. intros row Hrow.
    destruct (nth_in_or_default j row 0%Z) as [Hin| ->]; [|lia].
    specialize (Hobs row Hrow). rewrite Forall_forall in Hobs. now apply Hobs. }
  unfold Qdiv. apply Qmult_le_0_compat.
  - apply Qmult_le_0_compat; now apply inject_Z_nonneg.
  - apply Qinv_le_0_compat, inject_Z_nonneg. now apply Zsum_nonneg.
Qed.

Lemma pearson_statistic_nonneg (observed expected : list (list Q)) :
  Forall (fun e => 0 <= e)%Q (concat expected) ->
  (0 <= pearson_statistic observed expected)%Q.
Proof.
  intros Hexp. rewrite Forall_forall in Hexp.
  unfold pearson_statistic. apply Qsum_nonneg.
  rewrite Forall_map. apply Forall_forall. intros [o e] Hoe. cbn [fst snd].
  apply in_combine_r in Hoe. specialize (Hexp e Hoe).
  unfold Qdiv. apply Qmult_le_0_compat.
  - generalize (o - e)%Q. intros d. nra.
  - now apply Qinv_le_0_compat.
Qed.

Lemma chi2_contingency_range (chi2_sf : Q -> Z -> Q) (observed : list (list Z))
    (stat p : Q) :
  chi2_contingency chi2_sf observed = Ok (stat, p) ->
  (0 <= stat)%Q /\
  ((forall s d, 0 <= chi2_sf s d <= 1)%Q -> (0 <= p <= 1)%Q).
Proof.
  unfold chi2_contingency.
  destruct (existsb (existsb _) observed) eqn:Hneg; [discriminate|].
  destruct (_ =? 0)%nat; [discriminate|].
  destruct (existsb (existsb _) (expected_freq observed)); [discriminate|].
  pose proof (expected_freq_nonneg observed (no_negative_entry observed Hneg)) as He.
  destruct (_ =? 0)%Z.
  - intros H. injection H as <- <-. split; [apply Qle_refl|].
    intros _. split; discriminate.
  - intros H. injection H as <- <-. split.
    + now apply pearson_statistic_nonneg.
    + intros Hsf. apply Hsf.
Qed.

Lemma chi_square_record_inv (chi2_sf : Q -> Z -> Q) (cat : DataFrame)
    (pair : list string) (r : AssociationRecord) :
  chi_square_record chi2_sf cat pair = Ok r ->
  exists index cols,
    chi2_contingency chi2_sf (crosstab (values index) (values cols))
    = Ok (chi_square_stat r, p_value r).
Proof.
  unfold chi_square_record.
  destruct (tuple_get pair 0) as [p0|]; simpl; [|discriminate].
  destruct (getitem cat p0) as [x|]; simpl; [|discriminate].
  destruct (tuple_get pair 1) as [p1|]; simpl; [|discriminate].
  destruct (getitem cat p1) as [y|]; simpl; [|discriminate].
  destruct (chi2_contingency chi2_sf _) as [[stat p]|] eqn:E; simpl; [|discriminate].
  intros H. injection H as <-. simpl. eauto.
Qed.

(** Every record of the result carries a non-negative statistic, and a
    p-value between 0 and 1 as soon as the survival function stays between 0
    and 1. *)
Theorem chi_square_record_ranges (chi2_sf : Q -> Z -> Q) (dataset : DataFrame)
    (thr : Q) (n : nat) :
  NoDup (columns dataset) -> rectangular n dataset -> 0 < n ->
  exists out,
    calculate_pair_wise_chi_square_test chi2_sf dataset thr = Ok out /\
    forall r, In r out ->
      (0 <= chi_square_stat r)%Q /\
      ((forall s d, 0 <= chi2_sf s d <= 1)%Q -> (0 <= p_value r <= 1)%Q).
Proof.
  intros Hnd Hrect Hn.
  destruct (screener_characterisation chi2_sf dataset thr n Hnd Hrect Hn)
    as [cat [rows [out [_ [_ [_ [Hrows [_ [Hout [Hperm _]]]]]]]]]].
  exists out. split; trivial. intros r Hr.
  apply (Permutation_in _ Hperm) in Hr. apply filter_In in Hr.
  destruct Hr as [Hr _].
  apply (mapM_In _ _ _ Hrows) in Hr. destruct Hr as [pair [_ Hrec]].
  apply chi_square_record_inv in Hrec. destruct Hrec as [x [y Hchi]].
  now apply chi2_contingency_range in Hchi.
Qed.

Lemma chi_square_record_ranges_witness :
  exists out,
    calculate_pair_wise_chi_square_test (fun _ _ => 1 # 2)%Q test_data (3 # 4)%Q
      = Ok out /\
    forall r, In r out ->
      (0 <= chi_square_stat r)%Q /\
      ((forall (s : Q) (d : Z), 0 <= 1 # 2 <= 1)%Q -> (0 <= p_value r <= 1)%Q).
Proof.
  apply (chi_square_record_ranges (fun _ _ => 1 # 2)%Q test_data (3 # 4)%Q 3).
  - exact test_data_labels.
  - repeat constructor.
  - lia.
Defined.

Lemma degrees_of_freedom (r c : nat) :
  1 <= r -> 1 <= c ->
  (Z.of_nat (r * c) - Z.of_nat (r + c) + 2 - 1)%Z = Z.of_nat ((r - 1) * (c - 1)).
Proof.
  intros Hr Hc.
  destruct r as [|r]; [lia|]. destruct c as [|c]; [lia|].
  replace (S r - 1) with r by lia. replace (S c - 1) with c by lia.
  rewrite !Nat2Z.inj_mul, Nat2Z.inj_add, !Nat2Z.inj_succ. lia.
Qed.

(** When both columns have at least two distinct values the p-value is the
    survival function at the statistic with (rows - 1) * (columns - 1)
    degrees of freedom. *)
Lemma chi2_contingency_nondegenerate (chi2_sf : Q -> Z -> Q)
    (index cols : list value) :
  length index = length cols -> index <> [] ->
  2 <= length (unique index) -> 2 <= length (unique cols) ->
  exists stat,
    chi2_contingency chi2_sf (crosstab index cols) =
    Ok (stat, chi2_sf stat
                (Z.of_nat ((length (unique index) - 1) * (length (unique cols) - 1)))).
Proof.
  intros Hlen Hne Hr Hc. unfold chi2_contingency.
  rewrite crosstab_nonneg, expected_freq_nonzero by trivial.
  rewrite crosstab_length, crosstab_width by trivial.
  destruct (Nat.eqb_spec (length (unique index) * length (unique cols)) 0) as [E|_];
    [nia|].
  rewrite degrees_of_freedom by lia.
  destruct (Z.eqb_spec (Z.of_nat ((length (unique index) - 1)
                                  * (length (unique cols) - 1))) 0) as [E|_];
    [nia|].
  eauto.
Qed.

(** ** The cardinality filter before the other operations *)

Lemma drop_cols_no_cardinality_rectangular (n : nat) (dataset once : DataFrame) :
  NoDup (columns dataset) -> rectangular n dataset ->
  drop_cols_no_cardinality dataset = Ok once ->
  NoDup (columns once) /\ rectangular n once /\
  once = filter (fun c => negb (nunique (data c) <=? 1)%nat) dataset.
Proof.
  intros Hnd Hrect H.
  rewrite (drop_cols_no_cardinality_filter dataset Hnd) in H.
  injection H as <-. repeat split.
  - now apply NoDup_columns_filter.
  - now apply rectangular_filter.
Qed.

(** After the cardinality filter no categorical pair is degenerate: every
    pair of categorical columns of the filtered frame yields a record whose
    p-value is the survival function at its statistic, with
    (distinct values of the first - 1) * (distinct values of the second - 1)
    degrees of freedom, a number of at least 1. *)
Theorem chi_square_after_cardinality_filter (chi2_sf : Q -> Z -> Q)
    (dataset : DataFrame) (n : nat) :
  NoDup (columns dataset) -> rectangular n dataset -> 0 < n ->
  exists once cat rows,
    drop_cols_no_cardinality dataset = Ok once /\
    extract_categorical_cols once = Ok cat /\
    mapM (chi_square_record chi2_sf cat) (combinations (columns cat) 2) = Ok rows /\
    forall r, In r rows ->
      exists ca cb,
        In ca dataset /\ In cb dataset /\
        label ca = first_col r /\ label cb = second_col r /\
        2 <= nunique (data ca) /\ 2 <= nunique (data cb) /\
        p_value r = chi2_sf (chi_square_stat r)
                      (Z.of_nat ((nunique (data ca) - 1) * (nunique (data cb) - 1))).
Proof.
  intros Hnd Hrect Hn.
  pose proof (drop_cols_no_cardinality_filter dataset Hnd) as Hdrop.
  set (once := filter _ dataset) in Hdrop.
  destruct (drop_cols_no_cardinality_rectangular n dataset once Hnd Hrect Hdrop)
    as [Hnd1 [Hrect1 _]].
  pose proof (extract_categorical_cols_filter once Hnd1) as Hcat.
  set (cat := filter _ once) in Hcat.
  assert (Hnd2 : NoDup (columns cat)) by now apply NoDup_columns_filter.
  assert (Hrect2 : rectangular n cat) by now apply rectangular_filter.
  destruct (chi_square_records_total chi2_sf cat n Hnd2 Hrect2 Hn
              (combinations (columns cat) 2)) as [rows [Hrows Hkeys]].
  { intros p. apply combinations_2_In. }
  exists once, cat, rows. repeat split; trivial.
  intros r Hr. apply (mapM_In _ _ _ Hrows) in Hr.
  destruct Hr as [pair [Hpair Hrec]].
  apply combinations_2_In in Hpair. destruct Hpair as [a [b [-> Hprec]]].
  apply precedes_In in Hprec. destruct Hprec as [Ha Hb].
  apply in_columns in Ha, Hb.
  destruct Ha as [ca [Hca <-]]. destruct Hb as [cb [Hcb <-]].
  assert (Hfacts : forall c, In c cat ->
            In c dataset /\ 2 <= nunique (data c) /\
            length (values (data c)) = n).
  { intros c Hc. unfold rectangular in Hrect2. rewrite Forall_forall in Hrect2.
    pose proof (Hrect2 c Hc) as Hl.
    apply filter_In in Hc. destruct Hc as [Hc _].
    apply filter_In in Hc. destruct Hc as [Hc Hu].
    apply negb_true_iff, Nat.leb_gt in Hu. repeat split; trivial. }
  destruct (Hfacts ca Hca) as [Ha [Hua Hla]].
  destruct (Hfacts cb Hcb) as [Hb [Hub Hlb]].
  exists ca, cb.
  unfold chi_square_record in Hrec. simpl in Hrec.
  rewrite (getitem_unique cat ca Hnd2 Hca) in Hrec. simpl in Hrec.
  rewrite (getitem_unique cat cb Hnd2 Hcb) in Hrec. simpl in Hrec.
  destruct (chi2_contingency_nondegenerate chi2_sf
              (values (data ca)) (values (data cb))) as [stat Hstat]; trivial.
  { congruence. }
  { intros E. rewrite E in Hla. simpl in Hla. lia. }
  rewrite Hstat in Hrec. simpl in Hrec. injection Hrec as <-. simpl.
  repeat split; trivial.
Qed.

Lemma chi_square_after_cardinality_filter_witness :
  exists once cat rows,
    drop_cols_no_cardinality test_data = Ok once /\
    extract_categorical_cols once = Ok cat /\
    mapM (chi_square_record (fun _ _ => 1 # 2)%Q cat)
         (combinations (columns cat) 2) = Ok rows /\
    forall r, In r rows ->
      exists ca cb,
        In ca test_data /\ In cb test_data /\
        label ca = first_col r /\ label cb = second_col r /\
        2 <= nunique (data ca) /\ 2 <= nunique (data cb) /\
        p_value r = (fun _ _ => 1 # 2)%Q (chi_square_stat r)
                      (Z.of_nat ((nunique (data ca) - 1) * (nunique (data cb) - 1))).
Proof.
  apply (chi_square_after_cardinality_filter (fun _ _ => 1 # 2)%Q test_data 3).
  - exact test_data_labels.
  - repeat constructor.
  - lia.
Defined.

(** The cardinality filter and the categorical classifier commute: filtering
    the categorical subset gives the categorical subset of the filtered
    frame. *)
Theorem categorical_commutes_with_cardinality_filter (dataset : DataFrame) :
  NoDup (columns dataset) ->
  exists once cat,
    drop_cols_no_cardinality dataset = Ok once /\
    extract_categorical_cols dataset = Ok cat /\
    extract_categorical_cols once = drop_cols_no_cardinality cat.
Proof.
  intros Hnd.
  pose proof (drop_cols_no_cardinality_filter dataset Hnd) as Hdrop.
  pose proof (extract_categorical_cols_filter dataset Hnd) as Hcat.
  eexists. eexists. split; [exact Hdrop|]. split; [exact Hcat|].
  rewrite extract_categorical_cols_filter by now apply NoDup_columns_filter.
  rewrite drop_cols_no_cardinality_filter by now apply NoDup_columns_filter.
  rewrite !filter_twice. apply f_equal. apply filter_ext. intros c.
  destruct (negb _), (dtype_eqb _ _), (negb (mem_string _ _)); reflexivity.
Qed.

Lemma categorical_commutes_with_cardinality_filter_witness :
  exists once cat,
    drop_cols_no_cardinality test_data = Ok once /\
    extract_categorical_cols test_data = Ok cat /\
    extract_categorical_cols once = drop_cols_no_cardinality cat.
Proof.
  exact (categorical_commutes_with_cardinality_filter test_data test_data_labels).
Defined.

Lemma filter_none {A : Type} (p : A -> bool) (l : list A) :
  (forall x, In x l -> p x = false) -> filter p l = [].
Proof.
  induction l as [|x l IH]; simpl; intros H; [reflexivity|].
  rewrite (H x (or_introl eq_refl)). apply IH. intros y Hy. apply H. now right.
Qed.

(** On a frame without records every column has no distinct value, so the
    cardinality filter removes all columns. *)
Theorem drop_cols_no_cardinality_no_record (dataset : DataFrame) :
  NoDup (columns dataset) -> rectangular 0 dataset ->
  drop_cols_no_cardinality dataset = Ok [].
Proof.
  intros Hnd Hrect. rewrite drop_cols_no_cardinality_filter by trivial.
  apply f_equal. apply filter_none. intros c Hc.
  unfold rectangular in Hrect. rewrite Forall_forall in Hrect.
  unfold nunique. now rewrite (values_nil _ (Hrect c Hc)).
Qed.

Lemma drop_cols_no_cardinality_no_record_witness :
  drop_cols_no_cardinality empty_data = Ok [].
Proof.
  apply (drop_cols_no_cardinality_no_record empty_data).
  - distinct_labels.
  - repeat constructor.
Defined.

(** ** The age column as a hard dependency *)

(** Without a column labelled "Age" the correlation engine and the
    standardizer both fail with [KeyError], before any computation. *)
Theorem missing_age_raises (dataset : DataFrame) :
  ~ In "Age" (columns dataset) ->
  calculate_pair_wise_correlation dataset = Raise KeyError /\
  standardize_numeric_variables dataset = Raise KeyError.
Proof.
  intros H.
  unfold calculate_pair_wise_correlation, standardize_numeric_variables.
  now rewrite (extract_numerical_cols_absent dataset H).
Qed.

Lemma missing_age_raises_witness :
  calculate_pair_wise_correlation constant_category_data = Raise KeyError /\
  standardize_numeric_variables constant_category_data = Raise KeyError.
Proof.
  apply (missing_age_raises constant_category_data).
  simpl. intuition discriminate.
Defined.

(** A constant age column does not survive the cardinality filter, and on
    the filtered frame the numerical subset, the correlation engine and the
    standardizer all fail with [KeyError]. *)
Theorem constant_age_is_dropped (dataset : DataFrame) (age : column) :
  NoDup (columns dataset) ->
  In age dataset -> label age = "Age" -> nunique (data age) <= 1 ->
  exists once,
    drop_cols_no_cardinality dataset = Ok once /\
    extract_numerical_cols once = Raise KeyError /\
    calculate_pair_wise_correlation once = Raise KeyError /\
    standardize_numeric_variables once = Raise KeyError.
Proof.
  intros Hnd Hin Hl Hconst.
  pose proof (drop_cols_no_cardinality_filter dataset Hnd) as Hdrop.
  set (once := filter _ dataset) in Hdrop.
  assert (Habs : ~ In "Age" (columns once)).
  { intros H. apply in_columns in H. destruct H as [c [Hc Hcl]].
    apply filter_In in Hc. destruct Hc as [Hc Hp].
    assert (c = age) by (apply (label_inj dataset); congruence). subst c.
    apply negb_true_iff, Nat.leb_gt in Hp. lia. }
  exists once. split; [exact Hdrop|].
  split; [now apply extract_numerical_cols_absent|].
  now apply missing_age_raises.
Qed.

Lemma constant_age_is_dropped_witness :
  exists once,
    drop_cols_no_cardinality constant_age_data = Ok once /\
    extract_numerical_cols once = Raise KeyError /\
    calculate_pair_wise_correlation once = Raise KeyError /\
    standardize_numeric_variables once = Raise KeyError.
Proof.
  apply (constant_age_is_dropped constant_age_data
           (Column "Age" (IntSeries [30; 30; 30]%Z))).
  - distinct_labels.
  - simpl. now left.
  - reflexivity.
  - vm_compute. lia.
Defined.

(** On a frame without records (and with a numeric age column) the
    standardizer raises [ValueError]: the scaler refuses an array without
    samples. *)
Theorem standardize_no_record (dataset : DataFrame) (age : column) :
  NoDup (columns dataset) -> rectangular 0 dataset ->
  In age dataset -> label age = "Age" -> dtype_of (data age) <> object ->
  standardize_numeric_variables dataset = Raise ValueError.
Proof.
  intros Hnd Hrect Hin Hl Hty.
  unfold standardize_numeric_variables.
  rewrite (extract_numerical_cols_present dataset age Hnd Hin Hl). simpl.
  destruct (to_numeric_total 0 (select_dtypes float64 dataset ++ [age]))
    as [X [HX [Hlen Hall]]].
  - apply Forall_app. split; [apply select_dtypes_float_numeric|].
    now repeat constructor.
  - apply Forall_app. split; [now apply rectangular_filter|].
    repeat constructor. unfold rectangular in Hrect.
    rewrite Forall_forall in Hrect. now apply Hrect.
  - unfold fit_transform. rewrite HX. simpl.
    destruct X as [|x X]; [reflexivity|].
    inversion Hall as [|x' X' Hx _]; subst. simpl. now rewrite Hx.
Qed.

Lemma standardize_no_record_witness :
  standardize_numeric_variables empty_data = Raise ValueError.
Proof.
  apply (standardize_no_record empty_data (Column "Age" (IntSeries []))).
  - distinct_labels.
  - repeat constructor.
  - simpl. now left.
  - reflexivity.
  - discriminate.
Defined.

(** ** Classification is idempotent *)

(** The categorical subset is its own categorical subset, so the screener
    gives the same result on a frame and on its categorical subset. *)
Theorem extract_categorical_cols_idempotent (dataset : DataFrame) :
  NoDup (columns dataset) ->
  exists cat,
    extract_categorical_cols dataset = Ok cat /\
    extract_categorical_cols cat = Ok cat /\
    forall chi2_sf thr,
      calculate_pair_wise_chi_square_test chi2_sf cat thr =
      calculate_pair_wise_chi_square_test chi2_sf dataset thr.
Proof.
  intros Hnd.
  pose proof (extract_categorical_cols_filter dataset Hnd) as Hcat.
  set (cat := filter _ dataset) in Hcat.
  assert (Hidem : extract_categorical_cols cat = Ok cat).
  { rewrite extract_categorical_cols_filter by now apply NoDup_columns_filter.
    unfold cat. rewrite filter_twice. apply f_equal. apply filter_ext.
    intros c. destruct (dtype_eqb _ _), (negb (mem_string _ _)); reflexivity. }
  exists cat. repeat split; trivial.
  intros chi2_sf thr. unfold calculate_pair_wise_chi_square_test.
  now rewrite Hcat, Hidem.
Qed.

Lemma extract_categorical_cols_idempotent_witness :
  exists cat,
    extract_categorical_cols test_data = Ok cat /\
    extract_categorical_cols cat = Ok cat /\
    forall chi2_sf thr,
      calculate_pair_wise_chi_square_test chi2_sf cat thr =
      calculate_pair_wise_chi_square_test chi2_sf test_data thr.
Proof.
  exact (extract_categorical_cols_idempotent test_data test_data_labels).
Defined.

(** ** Zero variance in the correlation matrix *)

Lemma zero_variance_sum (l : list Q) :
  (variance l == 0)%Q -> (sum_dev_prod l l == 0)%Q.
Proof.
  intros Hvar. destruct l as [|x0 l0] eqn:El; [reflexivity|]. rewrite <- El in *.
  assert (Hn : (0 < Qcount l)%Q).
  { unfold Qcount, Qlt. rewrite El. simpl. lia. }
  unfold variance in Hvar.
  assert (E : (sum_dev_prod l l == sum_dev_prod l l / Qcount l * Qcount l)%Q).
  { field. lra. }
  rewrite E, Hvar. ring.
Qed.

Lemma pearson_zero_variance (x y : list Q) :
  length y = length x -> (variance x == 0)%Q ->
  pearson x y = None /\ pearson y x = None.
Proof.
  intros Hlen Hvar. apply zero_variance_sum in Hvar.
  unfold pearson. rewrite Hlen.
  destruct (length x =? 0)%nat; [split; reflexivity|].
  split.
  - replace (Qeq_bool _ 0) with true; [reflexivity|].
    symmetry. apply Qeq_bool_iff. rewrite Hvar. ring.
  - replace (Qeq_bool _ 0) with true; [reflexivity|].
    symmetry. apply Qeq_bool_iff. rewrite Hvar. ring.
Qed.

(** The correlation engine does not fail on a column of zero variance: the
    matrix is returned, and every entry in the row and in the column of such
    a column, the diagonal entry included, is NaN. *)
Theorem correlation_zero_variance_is_nan (dataset : DataFrame) (n : nat)
    (age : column) :
  NoDup (columns dataset) -> rectangular n dataset ->
  In age dataset -> label age = "Age" -> dtype_of (data age) <> object ->
  exists X m,
    to_numeric (select_dtypes float64 dataset ++ [age]) = Ok X /\
    calculate_pair_wise_correlation dataset = Ok m /\
    forall i j, i < length X -> j < length X ->
      (variance (nth i X []) == 0)%Q ->
      cell m i j = None /\ cell m j i = None.
Proof.
  intros Hnd Hrect Hin Hl Hty.
  set (num := select_dtypes float64 dataset ++ [age]).
  assert (Hrect' : rectangular n num).
  { apply Forall_app. split; [now apply rectangular_filter|].
    repeat constructor. unfold rectangular in Hrect.
    rewrite Forall_forall in Hrect. now apply Hrect. }
  destruct (to_numeric_total n num) as [X [HX [Hlen Hall]]]; trivial.
  { apply Forall_app. split; [apply select_dtypes_float_numeric|].
    now repeat constructor. }
  rewrite Forall_forall in Hall.
  exists X, (round 2 {| axis := columns num;
                        cells := map (fun x => map (fun y => pearson x y) X) X |}).
  split; [exact HX|]. split.
  - unfold calculate_pair_wise_correlation.
    rewrite (extract_numerical_cols_present dataset age Hnd Hin Hl).
    fold num. simpl. unfold corr. now rewrite HX.
  - intros i j Hi Hj Hvar.
    rewrite !cell_round_corr by trivial.
    destruct (pearson_zero_variance (nth i X []) (nth j X [])) as [-> ->]; trivial.
    + rewrite !Hall by now apply nth_In. reflexivity.
    + split; reflexivity.
Qed.

Lemma correlation_zero_variance_is_nan_witness :
  exists X m,
    to_numeric (select_dtypes float64 constant_numeric_data
                  ++ [Column "Age" (IntSeries [25; 30; 35]%Z)]) = Ok X /\
    calculate_pair_wise_correlation constant_numeric_data = Ok m /\
    forall i j, i < length X -> j < length X ->
      (variance (nth i X []) == 0)%Q ->
      cell m i j = None /\ cell m j i = None.
Proof.
  apply (correlation_zero_variance_is_nan constant_numeric_data 3
           (Column "Age" (IntSeries [25; 30; 35]%Z))).
  - distinct_labels.
  - repeat constructor.
  - simpl. now left.
  - reflexivity.
  - discriminate.
Defined.

(** ** Moments of a standardized column *)





Section Moments.

Variable l : list Q.
Hypothesis some_variance : ~ (variance l == 0)%Q.






End Moments.



(** ** Repeated labels *)

Lemma lookup_label_NoDup (df : DataFrame) :
  (forall k, In k (columns df) -> length (lookup_label df k) <= 1) ->
  NoDup (columns df).
Proof.
  induction df as [|c df IH]; intros H; [constructor|].
  simpl. constructor.
  - intros Hin. specialize (H (label c) (or_introl eq_refl)).
    simpl in H. rewrite String.eqb_refl in H. simpl in H.
    pose proof (lookup_label_present df (label c) Hin) as Hne.
    destruct (lookup_label df (label c)); [contradiction|simpl in H; lia].
  - apply IH. intros k Hk. specialize (H k (or_intror Hk)).
    simpl in H. destruct (String.eqb (label c) k); simpl in H; lia.
Qed.

Lemma repeated_label (df : DataFrame) :
  ~ NoDup (columns df) ->
  exists k, In k (columns df) /\ 2 <= length (lookup_label df k).
Proof.
  intros Hdup.
  destruct (Exists_dec (fun k => 2 <= length (lookup_label df k)) (columns df))
    as [Hex|Hnone].
  - intros k. apply le_dec.
  - apply Exists_exists in Hex. exact Hex.
  - exfalso. apply Hdup. apply lookup_label_NoDup. intros k Hk.
    destruct (le_dec (length (lookup_label df k)) 1) as [|Hgt]; trivial.
    exfalso. apply Hnone. apply Exists_exists. exists k. split; trivial. lia.
Qed.

Lemma filterM_getitem_repeated (df : DataFrame) (p : series -> bool)
    (keys : list string) :
  incl keys (columns df) ->
  (exists k, In k keys /\ 2 <= length (lookup_label df k)) ->
  filterM (fun col => s <- getitem df col ;; Ok (p s)) keys = Raise ValueError.
Proof.
  induction keys as [|k keys IH]; intros Hincl [k' [Hk' Hlen]];
    [contradiction|].
  simpl. unfold getitem at 1.
  pose proof (lookup_label_present df k (Hincl k (or_introl eq_refl))) as Hne.
  destruct (lookup_label df k) as [|c [|d rest]] eqn:E;
    [contradiction| |reflexivity].
  simpl. rewrite IH; [reflexivity| |].
  - intros x Hx. apply Hincl. now right.
  - exists k'. split; trivial. destruct Hk' as [->|Hk']; trivial.
    rewrite E in Hlen. simpl in Hlen. lia.
Qed.

(** A frame in which two columns carry the same label is refused by the
    cardinality filter with [ValueError]: selecting such a label gives a
    frame, not a column, and its distinct-value count cannot be compared
    with 1. *)
Theorem drop_cols_no_cardinality_repeated_label (dataset : DataFrame) :
  ~ NoDup (columns dataset) ->
  drop_cols_no_cardinality dataset = Raise ValueError.
Proof.
  intros Hdup. unfold drop_cols_no_cardinality.
  rewrite filterM_getitem_repeated; trivial.
  - apply incl_refl.
  - now apply repeated_label.
Qed.

Lemma drop_cols_no_cardinality_repeated_label_witness :
  let age := Column "Age" (FloatSeries [25; 30; 35]%Q) in
  drop_cols_no_cardinality (select_dtypes float64 float_age_data ++ [age])
  = Raise ValueError.
Proof.
  intro age.
  apply (drop_cols_no_cardinality_repeated_label
           (select_dtypes float64 float_age_data ++ [age])).
  intros H. apply (NoDup_count_occ string_dec) with (x := "Age") in H.
  vm_compute in H. lia.
Defined.
